(** * build_ebook_v2.py: assembling the merged Markdown document

    A shallow embedding of the document-assembly part of
    [build_ebook_v2.py]: the directory walk
    ([_process_files_in_directory]), the naming convention of entries,
    the four [re.sub] rewriting steps and the assembler
    ([generate_markdown_from_sources]).

    Text is modelled as [list ascii]; an [ascii] stands for a code point
    below 256.  The logger only prints and appends to the log file and
    is left out of the model. *)

From Stdlib Require Import String Ascii List Bool Arith Lia.
From Stdlib Require Import Permutation Sorting.Sorted.
Import ListNotations.

(** ** Text *)

Definition str := list ascii.

Definition txt (s : string) : str := list_ascii_of_string s.

(** The newline character, written ['\n'] in the source. *)
Definition nl : ascii := "010"%char.

(** [s.startswith(pat)]: also what matching a literal pattern at the
    current position of a regular-expression scan amounts to. *)
Fixpoint starts_with (pat s : str) : bool :=
  match pat, s with
  | [], _ => true
  | _ :: _, [] => false
  | p :: pat', c :: s' => Ascii.eqb p c && starts_with pat' s'
  end.

(** [pat in s] *)
Fixpoint occurs (pat s : str) : bool :=
  starts_with pat s ||
  match s with
  | [] => false
  | _ :: s' => occurs pat s'
  end.

(** ** [re.sub]

    [re.sub(pattern, repl, s)] scans [s] from the left, replaces every
    leftmost non-overlapping match and copies the other characters.  A
    pattern is given by its matcher: [m s] is [Some (n, r)] when the
    pattern matches the first [n] characters of [s] and the match is to
    be replaced by [r].  All patterns of the program match at least one
    character.  [skip] counts the characters of the last match that are
    still to be passed over. *)

Definition matcher := str -> option (nat * str).

Fixpoint sub_scan (m : matcher) (skip : nat) (s : str) : str :=
  match s with
  | [] => []
  | c :: s' =>
      match skip with
      | S k => sub_scan m k s'
      | O =>
          match m s with
          | Some (n, r) => r ++ sub_scan m (n - 1) s'
          | None => c :: sub_scan m 0 s'
          end
      end
  end.

Definition re_sub (m : matcher) (s : str) : str := sub_scan m 0 s.

(** A pattern without metacharacters, and its replacement string. *)
Definition literal (pat rep : str) : matcher :=
  fun s => if starts_with pat s then Some (length pat, rep) else None.

(** [s.replace(old, new)] for a non-empty [old] is the same scan. *)
Definition str_replace (old new s : str) : str := re_sub (literal old new) s.

(** [s.split(sep)] for a one-character separator: empty fields are kept
    and the result always has at least one field. *)
Fixpoint split (sep : ascii) (s : str) : list str :=
  match s with
  | [] => [[]]
  | c :: s' =>
      if Ascii.eqb c sep then [] :: split sep s'
      else match split sep s' with
           | t :: ts => (c :: t) :: ts
           | [] => [[c]]
           end
  end.

(** [sep.join(fields)] *)
Fixpoint join (sep : str) (fields : list str) : str :=
  match fields with
  | [] => []
  | [f] => f
  | f :: fs => f ++ sep ++ join sep fs
  end.

(** [str.lower] on code points below 256: the letters [A]-[Z] and the
    Latin-1 capitals U+00C0-U+00DE, the multiplication sign U+00D7
    apart, move up by 32. *)
Definition lower_char (c : ascii) : ascii :=
  let n := nat_of_ascii c in
  if ((65 <=? n) && (n <=? 90)) ||
     ((192 <=? n) && (n <=? 222) && negb (n =? 215))
  then ascii_of_nat (n + 32) else c.

Definition lower (s : str) : str := map lower_char s.

(** The leading run of characters that satisfy [p]. *)
Fixpoint take_while (p : ascii -> bool) (s : str) : str :=
  match s with
  | [] => []
  | c :: s' => if p c then c :: take_while p s' else []
  end.

(** ** The rewriting steps of [generate_markdown_from_sources] *)

(** [re.sub(r'\/images\/', 'images/', content)] *)
Definition fix_image_dir (content : str) : str :=
  re_sub (literal (txt "/images/") (txt "images/")) content.

(** [re.sub(r'\.svg', '.png', content)] *)
Definition fix_image_ext (content : str) : str :=
  re_sub (literal (txt ".svg") (txt ".png")) content.

(** [re.sub(r'\]\(\/', '](https://vulkan-tutorial.com/', content)] *)
Definition fix_relative_links (content : str) : str :=
  re_sub (literal (txt "](/") (txt "](https://vulkan-tutorial.com/")) content.

(** The nested function [repl], applied to [match.group(1)].  The
    default of [last] is never used, [split] returning at least one
    field ([split_not_nil] below). *)
Definition repl (group1 : str) : str :=
  let target := group1 in
  let target := lower target in
  let target := re_sub (literal (txt "_") (txt "-")) target in
  let target := last (split "/" target) [] in
  txt "](#" ++ target ++ txt ")".

Definition not_rparen (c : ascii) : bool := negb (Ascii.eqb c ")").

(** The pattern [\]\(!([^)]+)\)]: the three characters [](!], then the
    longest run of characters other than [)], which is group 1 and must
    not be empty, then [)].  The negated class matches newlines too.  A
    shorter run is followed by a character of the run, never by [)], so
    backtracking finds no other match. *)
Definition chapter_ref : matcher :=
  fun s =>
    match s with
    | "]"%char :: "("%char :: "!"%char :: rest =>
        let group1 := take_while not_rparen rest in
        match group1, skipn (length group1) rest with
        | _ :: _, ")"%char :: _ => Some (3 + length group1 + 1, repl group1)
        | _, _ => None
        end
    | _ => None
    end.

(** [re.sub(r'\]\(!([^)]+)\)', repl, content)] *)
Definition fix_chapter_references (content : str) : str :=
  re_sub chapter_ref content.

(** The four substitutions, in the order of the source. *)
Definition rewrite_references (content : str) : str :=
  let content := fix_image_dir content in
  let content := fix_image_ext content in
  let content := fix_relative_links content in
  fix_chapter_references content.

(** ** Chapter fragments and the content tree *)

(** [class VTEMarkdownFile] *)
Record VTEMarkdownFile := {
  content : str;
  depth : nat;
  prefix : str;
  title : str
}.

(** A directory entry as [iterdir] yields it: a file with its name and
    its text ([None] when [open] or [read] fails: the file cannot be
    opened or is not UTF-8), or a directory with its name and its
    entries in the order in which [iterdir] lists them. *)
#[warnings="-register-all"] Inductive entry :=
| File (name : str) (text : option str)
| Dir (name : str) (children : list entry).

Definition entry_name (e : entry) : str :=
  match e with
  | File name _ => name
  | Dir name _ => name
  end.

(** [name.rfind(c)], [None] for -1. *)
Fixpoint rfind (c : ascii) (name : str) : option nat :=
  match name with
  | [] => None
  | x :: name' =>
      match rfind c name' with
      | Some i => Some (S i)
      | None => if Ascii.eqb x c then Some 0 else None
      end
  end.

(** [pathlib]'s [PurePath.stem] (Python 3.9 to 3.13): the name without
    its last suffix; a leading or a trailing dot starts no suffix. *)
Definition stem (name : str) : str :=
  match rfind "." name with
  | Some i => if (0 <? i) && (i <? length name - 1) then firstn i name else name
  | None => name
  end.

(** ** State and exceptions

    The lists that the program allocates live in a store and are
    referred to by their address, so that a list passed to a recursive
    call is the caller's list.  The output file is [None] as long as it
    does not exist. *)

Definition loc := nat.

Record world := {
  lists : list (list VTEMarkdownFile);
  output_file : option str
}.

Inductive exn :=
| IndexError
| ReadError (name : str).

Inductive outcome (A : Type) :=
| Ok (a : A)
| Raise (e : exn).

Arguments Ok {A} a.
Arguments Raise {A} e.

Definition M (A : Type) : Type := world -> outcome A * world.

Definition ret {A} (a : A) : M A := fun w => (Ok a, w).

Definition raise {A} (e : exn) : M A := fun w => (Raise e, w).

Definition bind {A B} (c : M A) (k : A -> M B) : M B :=
  fun w =>
    match c w with
    | (Ok a, w') => k a w'
    | (Raise e, w') => (Raise e, w')
    end.

Notation "x <- c ;; k" := (bind c (fun x => k))
  (at level 61, c at next level, right associativity).
Notation "c ;;; k" := (bind c (fun _ => k))
  (at level 61, right associativity).

(** [list[VTEMarkdownFile]()]: a new empty list, at a new address. *)
Definition new_list : M loc :=
  fun w =>
    (Ok (length (lists w)),
     {| lists := lists w ++ [[]]; output_file := output_file w |}).

Fixpoint update (l : loc) (f : list VTEMarkdownFile -> list VTEMarkdownFile)
    (ls : list (list VTEMarkdownFile)) : list (list VTEMarkdownFile) :=
  match ls, l with
  | [], _ => []
  | x :: ls', O => f x :: ls'
  | x :: ls', S l' => x :: update l' f ls'
  end.

(** [markdown_files.append(file)] *)
Definition append (l : loc) (file : VTEMarkdownFile) : M unit :=
  fun w =>
    (Ok tt,
     {| lists := update l (fun x => x ++ [file]) (lists w);
        output_file := output_file w |}).

(** The current value of the list at an address. *)
Definition deref (l : loc) : M (list VTEMarkdownFile) :=
  fun w => (Ok (nth l (lists w) []), w).

(** [tokens[i]] *)
Definition index (tokens : list str) (i : nat) : M str :=
  match nth_error tokens i with
  | Some t => ret t
  | None => raise IndexError
  end.

(** [with open(entry, 'r', encoding="utf-8") as file: file.read()] *)
Definition read (name : str) (text : option str) : M str :=
  match text with
  | Some s => ret s
  | None => raise (ReadError name)
  end.

(** [with open(output_filename, "w", encoding="utf-8") as file:
    file.write(s)] *)
Definition write (s : str) : M unit :=
  fun w => (Ok tt, {| lists := lists w; output_file := Some s |}).

Section ForEach.
Variable A : Type.
Variable body : A -> M unit.

(** [for x in xs: body] *)
Fixpoint for_each (xs : list A) : M unit :=
  match xs with
  | [] => ret tt
  | x :: xs' => body x ;;; for_each xs'
  end.
End ForEach.

Arguments for_each {A} body xs.

(** ** The directory walk *)

(** [entry.stem.replace('_', ' ').split(" ")] *)
Definition title_tokens (stem : str) : list str :=
  split " " (str_replace (txt "_") (txt " ") stem).

(** One turn of the loop of [_process_files_in_directory], for the
    entry [e] of a directory walked at [current_depth] with
    [parent_prefix] and the list at [markdown_files].  For a directory
    the recursive call is made with an explicit list, so it allocates
    nothing and runs the loop over the children. *)
Fixpoint process_entry (current_depth : nat) (parent_prefix : str)
    (markdown_files : loc) (e : entry) {struct e} : M unit :=
  let title_tokens := title_tokens (stem (entry_name e)) in
  token <- index title_tokens 0 ;;
  let prefix := parent_prefix ++ token ++ txt "." in
  match e with
  | Dir _ children =>
      for_each (process_entry (current_depth + 1) prefix markdown_files)
        children
  | File name text =>
      let title := join (txt " ") (skipn 1 title_tokens) in
      content <- read name text ;;
      append markdown_files
        {| content := content; depth := current_depth;
           prefix := prefix; title := title |}
  end.

(** [_process_files_in_directory(directory_path, current_depth,
    parent_prefix, markdown_files)]; [directory] is what [iterdir]
    lists for [directory_path], and [None] is the default of
    [markdown_files]. *)
Definition _process_files_in_directory (directory : list entry)
    (current_depth : nat) (parent_prefix : str)
    (markdown_files : option loc) : M loc :=
  markdown_files <-
    match markdown_files with
    | None => new_list
    | Some l => ret l
    end ;;
  for_each (process_entry current_depth parent_prefix markdown_files)
    directory ;;;
  ret markdown_files.

(** ** The assembler *)

(** [a <= b] on strings: by code points, a proper prefix first. *)
Fixpoint str_leb (a b : str) : bool :=
  match a, b with
  | [], _ => true
  | _ :: _, [] => false
  | x :: a', y :: b' =>
      if nat_of_ascii x <? nat_of_ascii y then true
      else if nat_of_ascii y <? nat_of_ascii x then false
      else str_leb a' b'
  end.

Section Sorted.
Variable key : VTEMarkdownFile -> str.

Fixpoint insert (x : VTEMarkdownFile) (l : list VTEMarkdownFile) :
    list VTEMarkdownFile :=
  match l with
  | [] => [x]
  | y :: l' => if str_leb (key x) (key y) then x :: l else y :: insert x l'
  end.

(** [sorted(l, key=key)]: ascending and stable; an element goes in
    front of the later elements with an equal key. *)
Definition sorted (l : list VTEMarkdownFile) : list VTEMarkdownFile :=
  fold_right insert [] l.
End Sorted.

(** The body of the loop over the sorted fragments, up to the value
    that is added to [temp_markdown]. *)
Definition section_of (entry : VTEMarkdownFile) : str :=
  let content := txt "# " ++ title entry ++ [nl; nl] ++ content entry in
  rewrite_references content.

(** The loop over the sorted fragments: [temp_markdown] starts empty
    and grows by [content + '\n\n'] at each turn. *)
Definition join_sections (md_files : list VTEMarkdownFile) : str :=
  fold_left (fun temp_markdown entry =>
               temp_markdown ++ section_of entry ++ [nl; nl])
    md_files [].

(** [generate_markdown_from_sources(language, output_filename)];
    [language] is what [iterdir] lists for the directory of the
    language, and the file at [output_filename] is the output file of
    the world. *)
Definition generate_markdown_from_sources (language : list entry) : M unit :=
  md_files <- _process_files_in_directory language 0 [] None ;;
  md_files <- deref md_files ;;
  let md_files := sorted prefix md_files in
  let temp_markdown := join_sections md_files in
  write temp_markdown.

Definition empty_world : world := {| lists := []; output_file := None |}.


(** ** Image conversion and logging *)

(** [a == b] on strings. *)
Fixpoint str_eqb (a b : str) : bool :=
  match a, b with
  | [], [] => true
  | x :: a', y :: b' => Ascii.eqb x y && str_eqb a' b'
  | _, _ => false
  end.

(** [pathlib]'s [PurePath.suffix] (Python 3.9 to 3.13): the last dot of
    the name and what follows it, empty when that dot is the first or
    the last character or when there is none. *)
Definition suffix (name : str) : str :=
  match rfind "." name with
  | Some i => if (0 <? i) && (i <? length name - 1) then skipn i name else []
  | None => []
  end.

(** [pathlib]'s [PurePath.with_suffix], for a non-empty name and a new
    suffix that is valid (a dot and more, no separator), as [".png"] is:
    the [ValueError] cases are those of an empty name and of an invalid
    suffix.  [name[:-len(old_suffix)]] keeps the characters in front of
    the old suffix. *)
Definition with_suffix (name new_suffix : str) : str :=
  match suffix name with
  | [] => name ++ new_suffix
  | old_suffix => firstn (length name - length old_suffix) name ++ new_suffix
  end.

(** [convert_svg_to_png(images_folder)]; [images_folder] is the list of
    the names that [iterdir] yields, and the result is the list of the
    names of [pngs].  The call of Inkscape is commented out in the
    source, so the [try] block only appends and its handler is never
    entered. *)
Fixpoint convert_svg_to_png (images_folder : list str) : list str :=
  match images_folder with
  | [] => []
  | entry :: rest =>
      if str_eqb (suffix entry) (txt ".svg")
      then with_suffix entry (txt ".png") :: convert_svg_to_png rest
      else convert_svg_to_png rest
  end.

(** [class VTLogger].  The attribute [log_file] exists only when
    [__init__] was called with [log_to_file] being [True]; reading it
    otherwise raises [AttributeError]. *)
Module Logger.

Inductive attribute :=
| Unset
| FileObject (written : str).

Record VTLogger := { log_file : attribute }.

(** What has been printed, and the logger. *)
Record io := { stdout : str; logger : VTLogger }.

Inductive result :=
| Done
| AttributeError.

(** [VTLogger(filename, log_to_file)]: the file is opened for writing,
    so it starts empty. *)
Definition init (log_to_file : bool) : VTLogger :=
  if log_to_file then {| log_file := FileObject [] |}
  else {| log_file := Unset |}.

(** [print(message)] *)
Definition print (message : str) (s : io) : io :=
  {| stdout := stdout s ++ message ++ [nl]; logger := logger s |}.

Definition _log (message : str) (no_print : bool) (s : io) : result * io :=
  let s := if no_print then s else print message s in
  match log_file (logger s) with
  | Unset => (AttributeError, s)
  | FileObject written =>
      (Done,
       {| stdout := stdout s;
          logger := {| log_file := FileObject (written ++ message ++ [nl]) |} |})
  end.

Definition detail (message : str) : io -> result * io :=
  _log message true.

Definition error (message : str) : io -> result * io :=
  let message := txt "Error: " ++ message in
  _log message false.

Definition info (message : str) (s : io) : result * io :=
  let s := print message s in
  _log (txt "Info: " ++ message) true s.

Definition warning (message : str) : io -> result * io :=
  let message := txt "Warning: " ++ message in
  _log message false.

(** A call of one of the four methods, and a sequence of calls that
    stops at the first exception. *)
Inductive call :=
| Detail (message : str)
| Error (message : str)
| Info (message : str)
| Warning (message : str).

Definition run_call (c : call) : io -> result * io :=
  match c with
  | Detail m => detail m
  | Error m => error m
  | Info m => info m
  | Warning m => warning m
  end.

Fixpoint run_calls (cs : list call) (s : io) : result * io :=
  match cs with
  | [] => (Done, s)
  | c :: cs' =>
      match run_call c s with
      | (Done, s') => run_calls cs' s'
      | (AttributeError, s') => (AttributeError, s')
      end
  end.

(** The line that a call puts in the log file, and what it prints. *)
Definition logged (c : call) : str :=
  match c with
  | Detail m => m ++ [nl]
  | Error m => txt "Error: " ++ m ++ [nl]
  | Info m => txt "Info: " ++ m ++ [nl]
  | Warning m => txt "Warning: " ++ m ++ [nl]
  end.

Definition printed (c : call) : str :=
  match c with
  | Detail m => []
  | Error m => txt "Error: " ++ m ++ [nl]
  | Info m => m ++ [nl]
  | Warning m => txt "Warning: " ++ m ++ [nl]
  end.

End Logger.

(** ** Definitions for the statements *)

(** No match of [m] starts inside [h] when [h] is followed by [t]. *)
Fixpoint match_free (m : matcher) (h t : str) : bool :=
  match h with
  | [] => true
  | _ :: h' =>
      match m (h ++ t) with
      | Some _ => false
      | None => match_free m h' t
      end
  end.

(** [m] matches only where [pat] starts. *)
Definition guarded (pat : str) (m : matcher) : Prop :=
  forall s, starts_with pat s = false -> m s = None.

(** The anchor of a cross-reference as the specification words it: the
    final path segment, then lower-cased, then every underscore replaced
    by a hyphen. *)
Definition replace_char (a b : ascii) (s : str) : str :=
  map (fun c => if Ascii.eqb a c then b else c) s.

Definition spec_anchor (path : str) : str :=
  replace_char "_" "-" (lower (last (split "/" path) [])).

(** Pure view of the walk: the fragments that the loop appends for an
    entry, in order, and the exception that stops it, if any.
    [process_entry_run] below shows that the code does exactly this. *)
Section CollectEach.
Variable A : Type.
Variable f : A -> list VTEMarkdownFile * option exn.

Fixpoint collect_each (xs : list A) : list VTEMarkdownFile * option exn :=
  match xs with
  | [] => ([], None)
  | x :: xs' =>
      match f x with
      | (fs, Some e) => (fs, Some e)
      | (fs, None) =>
          let (fs', r) := collect_each xs' in (fs ++ fs', r)
      end
  end.
End CollectEach.

Arguments collect_each {A} f xs.

Fixpoint collect_entry (current_depth : nat) (parent_prefix : str)
    (e : entry) {struct e} : list VTEMarkdownFile * option exn :=
  let title_tokens := title_tokens (stem (entry_name e)) in
  match nth_error title_tokens 0 with
  | None => ([], Some IndexError)
  | Some token =>
      let prefix := parent_prefix ++ token ++ txt "." in
      match e with
      | Dir _ children =>
          collect_each (collect_entry (current_depth + 1) prefix) children
      | File name None => ([], Some (ReadError name))
      | File name (Some text) =>
          ([{| content := text; depth := current_depth; prefix := prefix;
               title := join (txt " ") (skipn 1 title_tokens) |}], None)
      end
  end.

Definition collect (directory : list entry) (current_depth : nat)
    (parent_prefix : str) : list VTEMarkdownFile * option exn :=
  collect_each (collect_entry current_depth parent_prefix) directory.

Definition finish {A} (a : A) (r : option exn) : outcome A :=
  match r with
  | None => Ok a
  | Some e => Raise e
  end.

(** The world in which the list at [l] has grown by [fs]. *)
Definition after (l : loc) (fs : list VTEMarkdownFile) (w : world) : world :=
  {| lists := update l (fun x => x ++ fs) (lists w);
     output_file := output_file w |}.

(** The names of the files of a tree that cannot be read, in the order
    of the walk. *)
Fixpoint unreadable (e : entry) : list str :=
  match e with
  | File name None => [name]
  | File _ (Some _) => []
  | Dir _ children => flat_map unreadable children
  end.

(** A token of an entry name: no underscore and no space in it. *)
Definition token_like (t : str) : Prop :=
  forallb (fun c => negb (Ascii.eqb c "_") && negb (Ascii.eqb c " ")) t = true.

(** [s] extends [p] by at least one character. *)
Definition extends (p s : str) : Prop :=
  exists rest, rest <> [] /\ s = p ++ rest.

(** The content tree of the end-to-end scenario, in either listing
    order of the root directory. *)
Definition scenario : list entry :=
  [ File (txt "1_Introduction.md") (Some (txt "Hello [there](!/2_Setup)"));
    Dir (txt "2_Setup")
      [ File (txt "1_Install.md") (Some (txt "Install steps.")) ] ].

Definition scenario_document : str :=
  txt "# Introduction" ++ [nl; nl] ++ txt "Hello [there](#2-setup)" ++ [nl; nl]
  ++ txt "# Install" ++ [nl; nl] ++ txt "Install steps." ++ [nl; nl].

(** Induction on content trees, with the property for every child of a
    directory. *)
Fixpoint entry_induction (P : entry -> Prop)
    (HFile : forall name text, P (File name text))
    (HDir : forall name children, Forall P children -> P (Dir name children))
    (e : entry) : P e :=
  match e with
  | File name text => HFile name text
  | Dir name children =>
      HDir name children
        ((fix all (l : list entry) : Forall P l :=
            match l with
            | [] => Forall_nil P
            | x :: l' => Forall_cons x (@entry_induction P HFile HDir x) (all l')
            end) children)
  end.

(** The ordering token and the title of an entry name, as
    [process_entry] computes them. *)
Definition ordering_token (name : str) : str :=
  nth 0 (title_tokens (stem name)) [].

Definition entry_title (name : str) : str :=
  join (txt " ") (skipn 1 (title_tokens (stem name))).

(** The prefix under a chain of directories, outermost first. *)
Fixpoint chain_prefix (parent_prefix : str) (dirs : list str) : str :=
  match dirs with
  | [] => parent_prefix
  | d :: dirs' =>
      chain_prefix (parent_prefix ++ ordering_token d ++ txt ".") dirs'
  end.

(** [file_in e dirs name text]: the file [name] with the text [text] is
    [e] itself ([dirs] empty) or lies in [e] under the chain of
    directories [dirs], which starts with [e]. *)
Inductive file_in : entry -> list str -> str -> str -> Prop :=
| file_here name text : file_in (File name (Some text)) [] name text
| file_below dname children c dirs name text :
    In c children -> file_in c dirs name text ->
    file_in (Dir dname children) (dname :: dirs) name text.

Definition file_at (directory : list entry) (dirs : list str)
    (name text : str) : Prop :=
  exists e, In e directory /\ file_in e dirs name text.

(** The fragment of a file under a chain of directories, for a walk
    that starts at [current_depth] with [parent_prefix]. *)
Definition fragment_of (current_depth : nat) (parent_prefix : str)
    (dirs : list str) (name text : str) : VTEMarkdownFile :=
  {| content := text;
     depth := current_depth + length dirs;
     prefix := chain_prefix parent_prefix dirs ++ ordering_token name
               ++ txt ".";
     title := entry_title name |}.

(** The number of files of a tree. *)
Fixpoint count_files (e : entry) : nat :=
  match e with
  | File _ _ => 1
  | Dir _ children => list_sum (map count_files children)
  end.

(** The order of [sorted] on the keys. *)
Definition key_le (key : VTEMarkdownFile -> str) (x y : VTEMarkdownFile) :
    Prop :=
  str_leb (key x) (key y) = true.

(** A character of a normalized anchor: no slash, no underscore, and
    unchanged by [lower]. *)
Definition anchor_char (c : ascii) : bool :=
  negb (Ascii.eqb c "/") && negb (Ascii.eqb c "_")
  && Ascii.eqb (lower_char c) c.

(** * Properties *)

(** ** Text *)

Lemma starts_with_app (pat s : str) : starts_with pat (pat ++ s) = true.
Proof.
  induction pat as [|p pat IH]; simpl; [reflexivity|].
  now rewrite Ascii.eqb_refl.
Qed.

Lemma starts_with_inv (pat s : str) :
  starts_with pat s = true -> exists rest, s = pat ++ rest.
Proof.
  revert s; induction pat as [|p pat IH]; intros s H.
  - now exists s.
  - destruct s as [|c s]; simpl in H; [discriminate|].
    apply andb_prop in H as [Hc Hs].
    apply Ascii.eqb_eq in Hc; subst c.
    destruct (IH _ Hs) as [rest ->]. now exists rest.
Qed.

(** A pattern without newline that matches in front of a newline
    matches before it. *)
Lemma starts_with_line (pat x t : str) :
  forallb (fun c => negb (Ascii.eqb c nl)) pat = true ->
  starts_with pat (x ++ nl :: t) = true -> starts_with pat x = true.
Proof.
  revert x; induction pat as [|p pat IH]; intros x Hnl H; [reflexivity|].
  simpl in Hnl. apply andb_prop in Hnl as [Hp Hnl].
  destruct x as [|c x]; simpl in *.
  - apply andb_prop in H as [H _]. rewrite H in Hp. discriminate.
  - apply andb_prop in H as [Hc H]. rewrite Hc. simpl. now apply IH.
Qed.

Lemma occurs_app_r (pat a b : str) :
  occurs pat (a ++ b) = false -> occurs pat b = false.
Proof.
  induction a as [|c a IH]; simpl; [auto|].
  intros H. apply orb_false_elim in H as [_ H]. now apply IH.
Qed.

Lemma occurs_here (pat s : str) :
  occurs pat s = false -> starts_with pat s = false.
Proof.
  destruct s; simpl; intros H; now apply orb_false_elim in H as [H _].
Qed.

(** ** The scan of [re.sub] *)

Lemma sub_scan_skip (m : matcher) (x t : str) :
  sub_scan m (length x) (x ++ t) = sub_scan m 0 t.
Proof. induction x as [|c x IH]; simpl; auto. Qed.

(** A match at the head is replaced and the scan goes on behind it. *)
Lemma re_sub_match (m : matcher) (x t r : str) :
  x <> [] -> m (x ++ t) = Some (length x, r) ->
  re_sub m (x ++ t) = r ++ re_sub m t.
Proof.
  intros Hx Hm. destruct x as [|c x]; [congruence|].
  unfold re_sub. simpl app in *. simpl sub_scan. rewrite Hm.
  simpl length. replace (S (length x) - 1) with (length x) by lia.
  now rewrite sub_scan_skip.
Qed.

(** Text in which no match starts is copied. *)
Lemma re_sub_free (m : matcher) (h t : str) :
  match_free m h t = true -> re_sub m (h ++ t) = h ++ re_sub m t.
Proof.
  unfold re_sub. induction h as [|c h IH]; simpl; [reflexivity|].
  destruct (m (c :: h ++ t)); [discriminate|].
  intros H. now rewrite IH.
Qed.

Lemma re_sub_free_all (m : matcher) (s : str) :
  match_free m s [] = true -> re_sub m s = s.
Proof.
  intros H. rewrite <- (app_nil_r s) at 1.
  rewrite (re_sub_free _ _ _ H). simpl. unfold re_sub. simpl.
  apply app_nil_r.
Qed.

Lemma match_free_app (m : matcher) (a b t : str) :
  match_free m a (b ++ t) = true -> match_free m b t = true ->
  match_free m (a ++ b) t = true.
Proof.
  induction a as [|c a IH]; simpl; [auto|].
  rewrite <- app_assoc. destruct (m (c :: a ++ b ++ t)); auto.
Qed.

Lemma literal_guarded (pat rep : str) : guarded pat (literal pat rep).
Proof. intros s H. unfold literal. now rewrite H. Qed.

Lemma chapter_ref_guarded : guarded (txt "](!") chapter_ref.
Proof.
  intros s H. unfold chapter_ref.
  destruct s as [|a [|b [|c s]]]; try reflexivity;
    try (destruct a as [[] [] [] [] [] [] [] []]; reflexivity).
  - destruct a as [[] [] [] [] [] [] [] []]; try reflexivity;
      destruct b as [[] [] [] [] [] [] [] []]; reflexivity.
  - destruct a as [[] [] [] [] [] [] [] []]; try reflexivity;
      destruct b as [[] [] [] [] [] [] [] []]; try reflexivity;
      destruct c as [[] [] [] [] [] [] [] []]; try reflexivity;
      simpl in H; discriminate.
Qed.

Lemma guarded_free (pat : str) (m : matcher) (h t : str) :
  guarded pat m -> occurs pat (h ++ t) = false -> match_free m h t = true.
Proof.
  intros G. induction h as [|c h IH]; simpl; [reflexivity|].
  intros H. apply orb_false_elim in H as [H1 H2].
  rewrite (G (c :: h ++ t)) by exact H1. now apply IH.
Qed.

(** A guarded pattern without newline finds nothing in a line that it
    does not occur in, whatever follows the end of the line. *)
Lemma guarded_free_line (pat : str) (m : matcher) (x t : str) :
  guarded pat m -> pat <> [] ->
  forallb (fun c => negb (Ascii.eqb c nl)) pat = true ->
  occurs pat x = false -> match_free m x (nl :: t) = true.
Proof.
  intros G Hne Hnl. induction x as [|c x IH]; simpl; [reflexivity|].
  intros H. apply orb_false_elim in H as [H1 H2].
  rewrite G.
  - now apply IH.
  - destruct (starts_with pat (c :: x ++ nl :: t)) eqn:E; [|reflexivity].
    apply (starts_with_line pat (c :: x) t Hnl) in E.
    simpl in E. destruct pat; [congruence|]. congruence.
Qed.

Lemma literal_free_all (pat rep s : str) :
  occurs pat s = false -> re_sub (literal pat rep) s = s.
Proof.
  intros H. apply re_sub_free_all.
  apply (guarded_free pat _ _ _ (literal_guarded pat rep)). now rewrite app_nil_r.
Qed.

Lemma literal_match (pat rep t : str) :
  pat <> [] -> re_sub (literal pat rep) (pat ++ t) = rep ++ re_sub (literal pat rep) t.
Proof.
  intros H. apply re_sub_match; [exact H|].
  unfold literal. now rewrite starts_with_app.
Qed.

(** A match behind text in which no match starts. *)
Lemma literal_law (pat rep pre post : str) :
  pat <> [] ->
  match_free (literal pat rep) pre (pat ++ post) = true ->
  re_sub (literal pat rep) (pre ++ pat ++ post)
  = pre ++ rep ++ re_sub (literal pat rep) post.
Proof.
  intros Hne H. rewrite (re_sub_free _ _ _ H). now rewrite literal_match.
Qed.

(** ** The reference rewriter *)

(** C7: a text in which none of the four patterns occurs (no
    [/images/], no [.svg], no [](/] and no match of the cross-reference
    pattern) is returned unchanged by the four substitutions. *)
Theorem rewrite_references_pattern_free (content : str) :
  occurs (txt "/images/") content = false ->
  occurs (txt ".svg") content = false ->
  occurs (txt "](/") content = false ->
  match_free chapter_ref content [] = true ->
  rewrite_references content = content.
Proof.
  intros H1 H2 H3 H4. unfold rewrite_references.
  unfold fix_image_dir, fix_image_ext, fix_relative_links,
    fix_chapter_references.
  rewrite (literal_free_all _ _ _ H1), (literal_free_all _ _ _ H2),
    (literal_free_all _ _ _ H3).
  now apply re_sub_free_all.
Qed.

Lemma rewrite_references_pattern_free_witness :
  rewrite_references (txt "An [svg](http://a/images) (!) file.s vg")
  = txt "An [svg](http://a/images) (!) file.s vg".
Proof.
  apply rewrite_references_pattern_free; reflexivity.
Defined.

(** C3, as the code has it: step 1 replaces every occurrence of
    [/images/] by [images/] wherever it stands, also in the middle of a
    link target; the text in front of the first occurrence is copied. *)
Theorem fix_image_dir_every_occurrence (pre post : str) :
  match_free (literal (txt "/images/") (txt "images/")) pre
    (txt "/images/" ++ post) = true ->
  fix_image_dir (pre ++ txt "/images/" ++ post)
  = pre ++ txt "images/" ++ fix_image_dir post.
Proof.
  intros H. unfold fix_image_dir. apply literal_law; [discriminate|exact H].
Qed.

Lemma fix_image_dir_every_occurrence_witness :
  fix_image_dir (txt "](/other/images/x.png)") = txt "](/otherimages/x.png)".
Proof.
  exact (fix_image_dir_every_occurrence (txt "](/other") (txt "x.png)")
           eq_refl).
Defined.

(** C3 as stated fails: the target [/other/images/x.png] does not start
    with the image directory, and yet step 1 joins two of its path
    components, in the result of the whole rewriter too. *)
Lemma fix_image_dir_counterexample :
  starts_with (txt "/images/") (txt "/other/images/x.png") = false /\
  fix_image_dir (txt "](/other/images/x.png)") <> txt "](/other/images/x.png)" /\
  rewrite_references (txt "](/other/images/x.png)")
  = txt "](https://vulkan-tutorial.com/otherimages/x.png)".
Proof.
  split; [reflexivity|]. split; [|reflexivity].
  intros H. vm_compute in H. discriminate H.
Qed.

(** C8: step 3 puts the base URL in front of a link target that starts
    with [/]; in particular the rewriter turns [](/some/path)] into
    [](https://vulkan-tutorial.com/some/path)], while a target in the
    image directory, which step 1 has made relative, gets no base
    URL. *)
Theorem fix_relative_links_absolute (pre rest : str) :
  match_free (literal (txt "](/") (txt "](https://vulkan-tutorial.com/")) pre
    (txt "](/" ++ rest) = true ->
  fix_relative_links (pre ++ txt "](/" ++ rest)
  = pre ++ txt "](https://vulkan-tutorial.com/" ++ fix_relative_links rest
  /\ rewrite_references (txt "](/some/path)")
     = txt "](https://vulkan-tutorial.com/some/path)"
  /\ forall tail, rewrite_references (txt "](/images/" ++ tail)
                  = txt "](images/" ++ rewrite_references tail.
Proof.
  intros H. split; [|split].
  - unfold fix_relative_links. apply literal_law; [discriminate|exact H].
  - reflexivity.
  - intros tail. unfold rewrite_references.
    assert (E1 : fix_image_dir (txt "](/images/" ++ tail)
                 = txt "](" ++ txt "images/" ++ fix_image_dir tail).
    { unfold fix_image_dir.
      apply (literal_law (txt "/images/") (txt "images/") (txt "](") tail);
        [discriminate|reflexivity]. }
    rewrite E1.
    set (r1 := fix_image_dir tail).
    assert (E2 : fix_image_ext (txt "](images/" ++ r1)
                 = txt "](images/" ++ fix_image_ext r1).
    { apply re_sub_free. reflexivity. }
    change (txt "](" ++ txt "images/" ++ r1) with (txt "](images/" ++ r1).
    rewrite E2. set (r2 := fix_image_ext r1).
    assert (E3 : fix_relative_links (txt "](images/" ++ r2)
                 = txt "](images/" ++ fix_relative_links r2).
    { apply re_sub_free. reflexivity. }
    rewrite E3. set (r3 := fix_relative_links r2).
    apply re_sub_free. reflexivity.
Qed.

Lemma fix_relative_links_absolute_witness :
  fix_relative_links (txt "[a](b) [c](/d/e.cpp)")
  = txt "[a](b) [c](https://vulkan-tutorial.com/d/e.cpp)".
Proof.
  exact (proj1 (fix_relative_links_absolute (txt "[a](b) [c") (txt "d/e.cpp)")
                  eq_refl)).
Defined.

(** *** Cross-references *)

Lemma re_sub_char (a b : ascii) (s : str) :
  re_sub (literal [a] [b]) s = replace_char a b s.
Proof.
  unfold re_sub. induction s as [|c s IH]; simpl; [reflexivity|].
  unfold literal at 1. simpl.
  destruct (Ascii.eqb a c); simpl; now rewrite IH.
Qed.

Lemma split_not_nil (sep : ascii) (s : str) : split sep s <> [].
Proof.
  induction s as [|c s IH]; simpl; [discriminate|].
  destruct (Ascii.eqb c sep); [discriminate|].
  destruct (split sep s); discriminate.
Qed.

(** A character map that keeps the separator apart goes through
    [split]. *)
Lemma split_map (f : ascii -> ascii) (sep : ascii) (s : str) :
  (forall c, Ascii.eqb (f c) sep = Ascii.eqb c sep) ->
  split sep (map f s) = map (map f) (split sep s).
Proof.
  intros Hf. induction s as [|c s IH]; simpl; [reflexivity|].
  rewrite Hf, IH. destruct (Ascii.eqb c sep); [reflexivity|].
  destruct (split sep s); reflexivity.
Qed.

Lemma last_map_nil (f : ascii -> ascii) (l : list str) :
  last (map (map f) l) [] = map f (last l []).
Proof.
  induction l as [|x l IH]; [reflexivity|].
  destruct l as [|y l]; [reflexivity|]. exact IH.
Qed.

Lemma lower_char_slash (c : ascii) :
  Ascii.eqb (lower_char c) "/" = Ascii.eqb c "/".
Proof. destruct c as [[] [] [] [] [] [] [] []]; vm_compute; reflexivity. Qed.

Lemma hyphen_slash (c : ascii) :
  Ascii.eqb (if Ascii.eqb "_" c then "-"%char else c) "/" = Ascii.eqb c "/".
Proof. destruct c as [[] [] [] [] [] [] [] []]; vm_compute; reflexivity. Qed.

(** The order of [repl] (lower-case, hyphens, then the last segment)
    gives the anchor of the specification (the last segment, then
    lower-case and hyphens). *)
Lemma repl_spec (path : str) :
  repl path = txt "](#" ++ spec_anchor path ++ txt ")".
Proof.
  unfold repl, spec_anchor. do 2 f_equal.
  change (txt "_") with ["_"%char]. change (txt "-") with ["-"%char].
  rewrite re_sub_char. unfold replace_char, lower.
  rewrite split_map by apply hyphen_slash.
  rewrite split_map by apply lower_char_slash.
  now rewrite !last_map_nil.
Qed.

Lemma take_while_run (p : ascii -> bool) (run : str) (c : ascii) (t : str) :
  forallb p run = true -> p c = false ->
  take_while p (run ++ c :: t) = run.
Proof.
  intros H Hc. induction run as [|x run IH]; simpl in *.
  - now rewrite Hc.
  - apply andb_prop in H as [Hx H]. rewrite Hx. now rewrite IH.
Qed.

Lemma skipn_length_app (x t : str) : skipn (length x) (x ++ t) = t.
Proof. induction x; simpl; auto. Qed.

Lemma chapter_ref_match (path post : str) :
  path <> [] -> forallb not_rparen path = true ->
  chapter_ref (txt "](!" ++ path ++ txt ")" ++ post)
  = Some (length (txt "](!" ++ path ++ txt ")"), repl path).
Proof.
  intros Hne Hp. unfold chapter_ref.
  change (txt "](!" ++ path ++ txt ")" ++ post)
    with ("]"%char :: "("%char :: "!"%char :: path ++ ")"%char :: post).
  cbv iota beta.
  rewrite (take_while_run not_rparen path ")" post Hp eq_refl).
  destruct path as [|c path]; [congruence|].
  rewrite (skipn_length_app (c :: path) (")"%char :: post)).
  do 2 f_equal. simpl. rewrite !length_app. simpl. lia.
Qed.

(** The law of step 4: a reference in front of which no other
    reference starts is replaced, and the scan goes on behind it. *)
Lemma chapter_ref_law (pre path post : str) :
  path <> [] ->
  forallb not_rparen path = true ->
  match_free chapter_ref pre (txt "](!" ++ path ++ txt ")" ++ post) = true ->
  fix_chapter_references (pre ++ txt "](!" ++ path ++ txt ")" ++ post)
  = pre ++ txt "](#" ++ spec_anchor path ++ txt ")"
        ++ fix_chapter_references post.
Proof.
  intros Hne Hp Hfree. unfold fix_chapter_references.
  rewrite (re_sub_free _ _ _ Hfree). f_equal.
  replace (txt "](!" ++ path ++ txt ")" ++ post)
    with ((txt "](!" ++ path ++ txt ")") ++ post)
    by now rewrite <- !app_assoc.
  rewrite re_sub_match with (r := repl path).
  - rewrite repl_spec. now rewrite <- !app_assoc.
  - discriminate.
  - rewrite <- chapter_ref_match with (post := post) by assumption.
    now rewrite <- !app_assoc.
Qed.

Lemma rewrite_references_literal_free (content : str) :
  occurs (txt "/images/") content = false ->
  occurs (txt ".svg") content = false ->
  occurs (txt "](/") content = false ->
  rewrite_references content = fix_chapter_references content.
Proof.
  intros H1 H2 H3. unfold rewrite_references.
  unfold fix_image_dir, fix_image_ext, fix_relative_links.
  now rewrite (literal_free_all _ _ _ H1), (literal_free_all _ _ _ H2),
    (literal_free_all _ _ _ H3).
Qed.

(** C4, as the code has it: step 4 works on the text as steps 1 to 3
    have left it.  There a marked reference [](!path)], with a
    non-empty [path] free of [)], in front of which no other reference
    starts, is replaced as a whole by [](#segment)], [segment] being
    the final segment of [path], lower-cased, with hyphens for
    underscores.  For a content in which none of [/images/], [.svg] and
    [](/] occurs the whole rewriter does this to the reference as it
    is written in the content, and goes on the same way behind it; it
    turns [](!/path/to/Some_Chapter)] into [](#some-chapter)]. *)
Theorem fix_chapter_references_anchor (pre path post : str) :
  path <> [] ->
  forallb not_rparen path = true ->
  match_free chapter_ref pre (txt "](!" ++ path ++ txt ")" ++ post) = true ->
  fix_chapter_references (pre ++ txt "](!" ++ path ++ txt ")" ++ post)
  = pre ++ txt "](#" ++ spec_anchor path ++ txt ")"
        ++ fix_chapter_references post
  /\ (occurs (txt "/images/") (pre ++ txt "](!" ++ path ++ txt ")" ++ post)
      = false ->
      occurs (txt ".svg") (pre ++ txt "](!" ++ path ++ txt ")" ++ post)
      = false ->
      occurs (txt "](/") (pre ++ txt "](!" ++ path ++ txt ")" ++ post)
      = false ->
      rewrite_references (pre ++ txt "](!" ++ path ++ txt ")" ++ post)
      = pre ++ txt "](#" ++ spec_anchor path ++ txt ")"
            ++ rewrite_references post)
  /\ rewrite_references (txt "](!/path/to/Some_Chapter)")
     = txt "](#some-chapter)".
Proof.
  intros Hne Hp Hfree.
  pose proof (chapter_ref_law pre path post Hne Hp Hfree) as L.
  split; [exact L|]. split; [|reflexivity].
  intros H1 H2 H3.
  rewrite (rewrite_references_literal_free _ H1 H2 H3), L.
  do 4 f_equal. symmetry.
  replace (pre ++ txt "](!" ++ path ++ txt ")" ++ post)
    with ((pre ++ txt "](!" ++ path ++ txt ")") ++ post) in H1, H2, H3
    by now rewrite <- !app_assoc.
  apply rewrite_references_literal_free; eapply occurs_app_r; eassumption.
Qed.

Lemma fix_chapter_references_anchor_witness :
  fix_chapter_references (txt "see [the setup](!en/03_Drawing/00_Base_Code) and (x)")
  = txt "see [the setup](#00-base-code) and (x)"
  /\ rewrite_references (txt "see [the setup](!en/03_Drawing/00_Base_Code) and (x)")
     = txt "see [the setup](#00-base-code) and (x)".
Proof.
  destruct (fix_chapter_references_anchor (txt "see [the setup")
              (txt "en/03_Drawing/00_Base_Code") (txt " and (x)")
              ltac:(discriminate) eq_refl eq_refl) as [H1 [H2 _]].
  exact (conj H1 (H2 eq_refl eq_refl eq_refl)).
Defined.

(** C4 as stated fails: in a content the path of a reference goes
    through steps 1 to 3 first; the final segment of [/a/B_c.svg],
    lower-cased and with hyphens, is [b-c.svg], and the rewriter
    resolves the reference to [b-c.png]. *)
Lemma fix_chapter_references_anchor_counterexample :
  spec_anchor (txt "/a/B_c.svg") = txt "b-c.svg"
  /\ rewrite_references (txt "[x](!/a/B_c.svg)") = txt "[x](#b-c.png)"
  /\ rewrite_references (txt "[x](!/a/B_c.svg)")
     <> txt "[x](#" ++ spec_anchor (txt "/a/B_c.svg") ++ txt ")".
Proof.
  split; [reflexivity|]. split; [reflexivity|].
  intros H. vm_compute in H. discriminate H.
Qed.

(** *** The heading *)

(** No match of a guarded pattern that has no newline and starts with
    neither [#] nor a space starts in the heading line of a title in
    which the pattern does not occur. *)
Lemma heading_free (pat : str) (m : matcher) (title t : str) :
  guarded pat m -> pat <> [] ->
  forallb (fun c => negb (Ascii.eqb c nl)) pat = true ->
  (forall c s, In c [nl; "#"; " "]%char -> starts_with pat (c :: s) = false) ->
  occurs pat title = false ->
  match_free m (txt "# " ++ title ++ [nl; nl]) t = true.
Proof.
  intros G Hne Hnl Hc Ht.
  change (txt "# " ++ title ++ [nl; nl])
    with (("#"%char :: " "%char :: title) ++ [nl; nl]).
  apply match_free_app.
  - apply (guarded_free_line pat m _ (nl :: t) G Hne Hnl).
    simpl. rewrite !Hc by (simpl; auto). simpl.
    destruct title; simpl in *; exact Ht.
  - simpl. rewrite !G by (apply Hc; simpl; auto). reflexivity.
Qed.

Ltac heading_side :=
  first [ discriminate | reflexivity
        | intros ? ? [<-|[<-|[<-|[]]]]; reflexivity ].

(** C2, as the code has it: the heading is put in front of the content
    before the four substitutions, which run over both.  The heading of
    a section is the title as parsed, followed by the rewritten
    content, when none of [/images/], [.svg], [](/] and [](!] occurs in
    the title. *)
Theorem section_of_heading (entry : VTEMarkdownFile) :
  occurs (txt "/images/") (title entry) = false ->
  occurs (txt ".svg") (title entry) = false ->
  occurs (txt "](/") (title entry) = false ->
  occurs (txt "](!") (title entry) = false ->
  section_of entry
  = txt "# " ++ title entry ++ [nl; nl] ++ rewrite_references (content entry).
Proof.
  intros H1 H2 H3 H4. unfold section_of, rewrite_references.
  replace (txt "# " ++ title entry ++ [nl; nl] ++ content entry)
    with ((txt "# " ++ title entry ++ [nl; nl]) ++ content entry)
    by now rewrite <- !app_assoc.
  unfold fix_image_dir at 2. unfold fix_image_dir at 1.
  rewrite re_sub_free
    by (apply (heading_free (txt "/images/"));
        [apply literal_guarded | heading_side .. | exact H1]).
  unfold fix_image_ext at 2. unfold fix_image_ext at 1.
  rewrite re_sub_free
    by (apply (heading_free (txt ".svg"));
        [apply literal_guarded | heading_side .. | exact H2]).
  unfold fix_relative_links at 2. unfold fix_relative_links at 1.
  rewrite re_sub_free
    by (apply (heading_free (txt "](/"));
        [apply literal_guarded | heading_side .. | exact H3]).
  unfold fix_chapter_references.
  rewrite re_sub_free
    by (apply (heading_free (txt "](!"));
        [apply chapter_ref_guarded | heading_side .. | exact H4]).
  now rewrite <- !app_assoc.
Qed.

Lemma section_of_heading_witness :
  section_of {| content := txt "See ![fig](/images/a.svg)"; depth := 0;
                prefix := txt "1."; title := txt "Base code" |}
  = txt "# Base code" ++ [nl; nl] ++ txt "See ![fig](images/a.png)".
Proof.
  exact (section_of_heading
           {| content := txt "See ![fig](/images/a.svg)"; depth := 0;
              prefix := txt "1."; title := txt "Base code" |}
           eq_refl eq_refl eq_refl eq_refl).
Defined.

(** ** The naming convention *)

Lemma replace_char_id (a b : ascii) (t : str) :
  forallb (fun c => negb (Ascii.eqb c a)) t = true -> replace_char a b t = t.
Proof.
  induction t as [|c t IH]; simpl; [reflexivity|].
  intros H. apply andb_prop in H as [Hc H].
  rewrite Ascii.eqb_sym. apply negb_true_iff in Hc. rewrite Hc.
  now rewrite IH.
Qed.

Lemma replace_char_join (a b : ascii) (l : list str) :
  Forall (fun t => forallb (fun c => negb (Ascii.eqb c a)) t = true) l ->
  replace_char a b (join [a] l) = join [b] l.
Proof.
  induction 1 as [|t l Ht Hl IH]; [reflexivity|].
  destruct l as [|u l].
  - simpl. now apply replace_char_id.
  - change (join [a] (t :: u :: l)) with (t ++ [a] ++ join [a] (u :: l)).
    change (join [b] (t :: u :: l)) with (t ++ [b] ++ join [b] (u :: l)).
    unfold replace_char in *. rewrite !map_app, IH.
    fold (replace_char a b t). rewrite (replace_char_id a b t Ht).
    simpl. now rewrite Ascii.eqb_refl.
Qed.

Lemma split_plain (sep : ascii) (t : str) :
  forallb (fun c => negb (Ascii.eqb c sep)) t = true -> split sep t = [t].
Proof.
  induction t as [|c t IH]; simpl; [reflexivity|].
  intros H. apply andb_prop in H as [Hc H].
  apply negb_true_iff in Hc. rewrite Hc. now rewrite IH.
Qed.

Lemma split_app_sep (sep : ascii) (t s : str) :
  forallb (fun c => negb (Ascii.eqb c sep)) t = true ->
  split sep (t ++ sep :: s) = t :: split sep s.
Proof.
  induction t as [|c t IH]; simpl.
  - now rewrite Ascii.eqb_refl.
  - intros H. apply andb_prop in H as [Hc H].
    apply negb_true_iff in Hc. rewrite Hc. now rewrite IH.
Qed.

(** [split] undoes [join] on fields without separator. *)
Lemma split_join (sep : ascii) (l : list str) :
  l <> [] ->
  Forall (fun t => forallb (fun c => negb (Ascii.eqb c sep)) t = true) l ->
  split sep (join [sep] l) = l.
Proof.
  intros Hne H. induction H as [|t l Ht Hl IH]; [now elim Hne|].
  destruct l as [|u l].
  - simpl. now apply split_plain.
  - change (join [sep] (t :: u :: l)) with (t ++ sep :: join [sep] (u :: l)).
    rewrite split_app_sep by exact Ht. f_equal. apply IH. discriminate.
Qed.

Lemma title_tokens_join (l : list str) :
  l <> [] -> Forall token_like l -> title_tokens (join (txt "_") l) = l.
Proof.
  intros Hne H. unfold title_tokens, str_replace.
  change (txt "_") with ["_"%char]. change (txt " ") with [" "%char].
  rewrite re_sub_char, replace_char_join.
  - apply split_join; [exact Hne|].
    eapply Forall_impl; [|exact H]. intros t Ht. unfold token_like in Ht.
    rewrite forallb_forall in *. intros c Hc.
    specialize (Ht c Hc). now apply andb_prop in Ht as [_ Ht].
  - eapply Forall_impl; [|exact H]. intros t Ht. unfold token_like in Ht.
    rewrite forallb_forall in *. intros c Hc.
    specialize (Ht c Hc). now apply andb_prop in Ht as [Ht _].
Qed.

Lemma title_tokens_first (name : str) :
  exists first, nth_error (title_tokens name) 0 = Some first.
Proof.
  unfold title_tokens.
  destruct (split " " (str_replace (txt "_") (txt " ") name)) as [|t ts] eqn:E.
  - now apply split_not_nil in E.
  - now exists t.
Qed.

(** C6: for a name made of tokens joined by underscores, the ordering
    token is the first token and the title is the other tokens joined by
    single spaces (empty for a single token, [word1 word2] for
    [token_word1_word2]); and for every name whatever, the empty name
    too, taking the ordering token raises nothing. *)
Theorem naming_convention (token : str) (words : list str) (w : world) :
  Forall token_like (token :: words) ->
  index (title_tokens (join (txt "_") (token :: words))) 0 w = (Ok token, w)
  /\ join (txt " ") (skipn 1 (title_tokens (join (txt "_") (token :: words))))
     = join (txt " ") words
  /\ (forall name, exists first, index (title_tokens name) 0 w = (Ok first, w)).
Proof.
  intros H.
  rewrite (title_tokens_join (token :: words)) by (discriminate || exact H).
  split; [reflexivity|]. split; [reflexivity|].
  intros name. destruct (title_tokens_first name) as [first E].
  exists first. unfold index. now rewrite E.
Qed.

Lemma naming_convention_witness :
  index (title_tokens (txt "03_Drawing_a_triangle")) 0 empty_world
  = (Ok (txt "03"), empty_world)
  /\ join (txt " ") (skipn 1 (title_tokens (txt "03_Drawing_a_triangle")))
     = txt "Drawing a triangle".
Proof.
  destruct (naming_convention (txt "03")
              [txt "Drawing"; txt "a"; txt "triangle"] empty_world
              ltac:(repeat constructor)) as [H1 [H2 _]].
  exact (conj H1 H2).
Defined.

(** ** The store *)

Lemma update_ext (l : loc) (f g : list VTEMarkdownFile -> list VTEMarkdownFile)
    (ls : list (list VTEMarkdownFile)) :
  (forall x, f x = g x) -> update l f ls = update l g ls.
Proof.
  intros E. revert l; induction ls as [|x ls IH]; intros [|l]; simpl;
    try reflexivity.
  - now rewrite E.
  - now rewrite IH.
Qed.

Lemma update_id (l : loc) (ls : list (list VTEMarkdownFile)) :
  update l (fun x => x) ls = ls.
Proof.
  revert l; induction ls as [|x ls IH]; intros [|l]; simpl; try reflexivity.
  now rewrite IH.
Qed.

Lemma update_update (l : loc)
    (f g : list VTEMarkdownFile -> list VTEMarkdownFile)
    (ls : list (list VTEMarkdownFile)) :
  update l g (update l f ls) = update l (fun x => g (f x)) ls.
Proof.
  revert l; induction ls as [|x ls IH]; intros [|l]; simpl; try reflexivity.
  now rewrite IH.
Qed.

Lemma nth_update (l : loc) (f : list VTEMarkdownFile -> list VTEMarkdownFile)
    (ls : list (list VTEMarkdownFile)) :
  l < length ls -> nth l (update l f ls) [] = f (nth l ls []).
Proof.
  revert l; induction ls as [|x ls IH]; intros [|l] H; simpl in *;
    try lia; try reflexivity.
  apply IH. lia.
Qed.

Lemma update_new (f : list VTEMarkdownFile -> list VTEMarkdownFile)
    (ls : list (list VTEMarkdownFile)) (x : list VTEMarkdownFile) :
  update (length ls) f (ls ++ [x]) = ls ++ [f x].
Proof. induction ls as [|y ls IH]; simpl; [reflexivity|]. now rewrite IH. Qed.

Lemma after_nil (l : loc) (w : world) : after l [] w = w.
Proof.
  destruct w as [ls out]. unfold after. simpl. f_equal.
  rewrite (update_ext l _ (fun x => x)); [apply update_id|].
  intros x. apply app_nil_r.
Qed.

Lemma after_after (l : loc) (a b : list VTEMarkdownFile) (w : world) :
  after l b (after l a w) = after l (a ++ b) w.
Proof.
  unfold after. simpl. f_equal. rewrite update_update.
  apply update_ext. intros x. now rewrite app_assoc.
Qed.

(** ** The walk *)

Lemma process_entry_dir (d : nat) (pp : str) (l : loc) (name : str)
    (children : list entry) :
  process_entry d pp l (Dir name children)
  = (token <- index (title_tokens (stem name)) 0 ;;
     for_each (process_entry (d + 1) (pp ++ token ++ txt ".") l) children).
Proof. reflexivity. Qed.

Lemma collect_entry_dir (d : nat) (pp : str) (name : str)
    (children : list entry) :
  collect_entry d pp (Dir name children)
  = match nth_error (title_tokens (stem name)) 0 with
    | None => ([], Some IndexError)
    | Some token =>
        collect_each (collect_entry (d + 1) (pp ++ token ++ txt ".")) children
    end.
Proof. reflexivity. Qed.

Lemma process_entry_file (d : nat) (pp : str) (l : loc) (name : str)
    (text : option str) :
  process_entry d pp l (File name text)
  = (token <- index (title_tokens (stem name)) 0 ;;
     content <- read name text ;;
     append l {| content := content; depth := d;
                 prefix := pp ++ token ++ txt ".";
                 title := join (txt " ") (skipn 1 (title_tokens (stem name))) |}).
Proof. reflexivity. Qed.

Lemma collect_entry_file (d : nat) (pp : str) (name : str)
    (text : option str) :
  collect_entry d pp (File name text)
  = match nth_error (title_tokens (stem name)) 0 with
    | None => ([], Some IndexError)
    | Some token =>
        match text with
        | None => ([], Some (ReadError name))
        | Some text =>
            ([{| content := text; depth := d;
                 prefix := pp ++ token ++ txt ".";
                 title := join (txt " ")
                            (skipn 1 (title_tokens (stem name))) |}], None)
        end
    end.
Proof. reflexivity. Qed.

(** The loop does what its turns do, one after the other, up to the
    first exception. *)
Lemma for_each_run (A : Type) (body : A -> M unit)
    (f : A -> list VTEMarkdownFile * option exn) (l : loc) (xs : list A) :
  Forall (fun x => forall w,
            body x w = (finish tt (snd (f x)), after l (fst (f x)) w)) xs ->
  forall w,
    for_each body xs w
    = (finish tt (snd (collect_each f xs)),
       after l (fst (collect_each f xs)) w).
Proof.
  induction 1 as [|x xs Hx Hxs IH]; intros w; simpl.
  - now rewrite after_nil.
  - unfold bind. rewrite Hx. destruct (f x) as [fs [e|]]; simpl.
    + reflexivity.
    + rewrite IH. destruct (collect_each f xs) as [fs' r]. simpl.
      now rewrite after_after.
Qed.

(** The code of the walk appends the fragments of the pure view to the
    list it is given and ends as the pure view says. *)
Lemma process_entry_run (e : entry) :
  forall d pp l w,
    process_entry d pp l e w
    = (finish tt (snd (collect_entry d pp e)),
       after l (fst (collect_entry d pp e)) w).
Proof.
  induction e as [name text|name children IH] using entry_induction;
    intros d pp l w.
  - rewrite process_entry_file, collect_entry_file. unfold bind, index.
    destruct (title_tokens_first (stem name)) as [token E]. rewrite E.
    destruct text as [text|]; simpl.
    + reflexivity.
    + now rewrite after_nil.
  - rewrite process_entry_dir, collect_entry_dir. unfold bind, index.
    destruct (title_tokens_first (stem name)) as [token E]. rewrite E.
    simpl ret. cbv beta iota.
    apply for_each_run.
    eapply Forall_impl; [|exact IH]. intros c Hc w'. apply Hc.
Qed.

Lemma process_files_run (directory : list entry) (d : nat) (pp : str)
    (l : loc) (w : world) :
  _process_files_in_directory directory d pp (Some l) w
  = (finish l (snd (collect directory d pp)),
     after l (fst (collect directory d pp)) w).
Proof.
  unfold _process_files_in_directory, bind, ret, collect.
  rewrite (for_each_run _ _ (collect_entry d pp) l).
  - destruct (snd (collect_each (collect_entry d pp) directory)); reflexivity.
  - apply Forall_forall. intros e _ w'. apply process_entry_run.
Qed.

Lemma process_files_fresh (directory : list entry) (d : nat) (pp : str)
    (w : world) :
  _process_files_in_directory directory d pp None w
  = (finish (length (lists w)) (snd (collect directory d pp)),
     {| lists := lists w ++ [fst (collect directory d pp)];
        output_file := output_file w |}).
Proof.
  unfold _process_files_in_directory, bind, ret, new_list, collect.
  rewrite (for_each_run _ _ (collect_entry d pp) (length (lists w))).
  - unfold after. simpl. rewrite update_new. simpl.
    destruct (snd (collect_each (collect_entry d pp) directory)); reflexivity.
  - apply Forall_forall. intros e _ w'. apply process_entry_run.
Qed.

Lemma generate_run (language : list entry) (w : world) :
  generate_markdown_from_sources language w
  = match snd (collect language 0 []) with
    | Some e =>
        (Raise e,
         {| lists := lists w ++ [fst (collect language 0 [])];
            output_file := output_file w |})
    | None =>
        (Ok tt,
         {| lists := lists w ++ [fst (collect language 0 [])];
            output_file :=
              Some (join_sections (sorted prefix (fst (collect language 0 [])))) |})
    end.
Proof.
  unfold generate_markdown_from_sources, bind.
  rewrite process_files_fresh.
  destruct (snd (collect language 0 [])); simpl; [reflexivity|].
  unfold write. simpl. now rewrite nth_middle.
Qed.

(** ** Prefixes *)

Lemma extends_step (pp token s : str) :
  extends (pp ++ token ++ txt ".") s -> extends pp s.
Proof.
  intros [rest [Hne ->]]. exists ((token ++ txt ".") ++ rest). split.
  - destruct token; discriminate.
  - now rewrite <- !app_assoc.
Qed.

Lemma collect_each_Forall (A : Type) (P : VTEMarkdownFile -> Prop)
    (f : A -> list VTEMarkdownFile * option exn) (xs : list A) :
  Forall (fun x => Forall P (fst (f x))) xs ->
  Forall P (fst (collect_each f xs)).
Proof.
  induction 1 as [|x xs Hx Hxs IH]; simpl; [constructor|].
  destruct (f x) as [fs [e|]]; simpl in *; [exact Hx|].
  destruct (collect_each f xs) as [fs' r]. simpl in *.
  apply Forall_app. now split.
Qed.

Lemma collect_entry_extends (e : entry) :
  forall d pp, Forall (fun f => extends pp (prefix f)) (fst (collect_entry d pp e)).
Proof.
  induction e as [name text|name children IH] using entry_induction;
    intros d pp.
  - rewrite collect_entry_file.
    destruct (nth_error (title_tokens (stem name)) 0) as [token|];
      [|constructor].
    destruct text as [text|]; simpl; constructor; [|constructor].
    simpl. exists (token ++ txt "."). split; [|reflexivity].
    destruct token; discriminate.
  - rewrite collect_entry_dir.
    destruct (nth_error (title_tokens (stem name)) 0) as [token|];
      [|constructor].
    apply collect_each_Forall.
    eapply Forall_impl; [|exact IH]. intros c Hc.
    eapply Forall_impl; [|apply Hc]. intros f. apply extends_step.
Qed.

(** C5: in a directory walked with [parent_prefix], a file whose
    ordering token is [token] gives a fragment with the prefix
    [parent_prefix ++ token ++ "."]; a directory with that token is
    walked with this prefix as the parent prefix of its own entries; so
    every fragment that the walk of a directory adds has a prefix that
    starts with the parent prefix and is longer. *)
Theorem prefix_construction (directory children : list entry)
    (name token text : str) (current_depth : nat) (parent_prefix : str)
    (l : loc) (w : world) :
  l < length (lists w) ->
  nth_error (title_tokens (stem name)) 0 = Some token ->
  process_entry current_depth parent_prefix l (File name (Some text)) w
  = (Ok tt,
     after l [{| content := text; depth := current_depth;
                 prefix := parent_prefix ++ token ++ txt ".";
                 title := join (txt " ")
                            (skipn 1 (title_tokens (stem name))) |}] w)
  /\ process_entry current_depth parent_prefix l (Dir name children) w
     = (let (r, w') :=
          _process_files_in_directory children (current_depth + 1)
            (parent_prefix ++ token ++ txt ".") (Some l) w in
        (match r with Ok _ => Ok tt | Raise e => Raise e end, w'))
  /\ (let (r, w') :=
        _process_files_in_directory directory current_depth parent_prefix
          (Some l) w in
      exists new,
        nth l (lists w') [] = nth l (lists w) [] ++ new /\
        Forall (fun f => extends parent_prefix (prefix f)) new).
Proof.
  intros Hl Htoken. split; [|split].
  - rewrite process_entry_file. unfold bind, index. rewrite Htoken.
    reflexivity.
  - rewrite process_entry_dir.
    unfold _process_files_in_directory, bind, index, ret. rewrite Htoken.
    destruct (for_each _ children w) as [[[]|e] w']; reflexivity.
  - rewrite process_files_run.
    exists (fst (collect directory current_depth parent_prefix)). split.
    + unfold after. simpl. now rewrite nth_update.
    + apply collect_each_Forall. apply Forall_forall. intros e _.
      apply collect_entry_extends.
Qed.

Lemma prefix_construction_witness :
  process_entry 1 (txt "03.") 0 (File (txt "00_Setup.md") (Some (txt "x")))
    {| lists := [[]]; output_file := None |}
  = (Ok tt,
     {| lists := [[{| content := txt "x"; depth := 1;
                      prefix := txt "03.00."; title := txt "Setup" |}]];
        output_file := None |}).
Proof.
  exact (proj1 (prefix_construction scenario scenario (txt "00_Setup.md")
                  (txt "00") (txt "x") 1 (txt "03.") 0
                  {| lists := [[]]; output_file := None |}
                  (Nat.lt_0_succ 0) eq_refl)).
Defined.

(** ** Failure of a read *)

Lemma collect_each_unreadable (A : Type)
    (f : A -> list VTEMarkdownFile * option exn) (u : A -> list str)
    (xs : list A) :
  Forall (fun x => snd (f x) = match u x with
                               | [] => None
                               | name :: _ => Some (ReadError name)
                               end) xs ->
  snd (collect_each f xs) = match flat_map u xs with
                            | [] => None
                            | name :: _ => Some (ReadError name)
                            end.
Proof.
  induction 1 as [|x xs Hx Hxs IH]; simpl; [reflexivity|].
  destruct (f x) as [fs r]. simpl in Hx. subst r.
  destruct (u x) as [|name rest]; simpl.
  - destruct (collect_each f xs) as [fs' r]. exact IH.
  - reflexivity.
Qed.

Lemma collect_entry_unreadable (e : entry) :
  forall d pp,
    snd (collect_entry d pp e) = match unreadable e with
                                 | [] => None
                                 | name :: _ => Some (ReadError name)
                                 end.
Proof.
  induction e as [name text|name children IH] using entry_induction;
    intros d pp.
  - rewrite collect_entry_file.
    destruct (title_tokens_first (stem name)) as [token E]. rewrite E.
    destruct text; reflexivity.
  - rewrite collect_entry_dir.
    destruct (title_tokens_first (stem name)) as [token E]. rewrite E.
    change (unreadable (Dir name children))
      with (flat_map unreadable children).
    apply collect_each_unreadable.
    eapply Forall_impl; [|exact IH]. intros c Hc. apply Hc.
Qed.

(** C9: when a file of the content tree cannot be read, the build of
    the language ends with the read error of the first such file of the
    walk, and the output file is what it was before: nothing is
    written. *)
Theorem read_failure_writes_nothing (language : list entry) (w : world)
    (name : str) (others : list str) :
  flat_map unreadable language = name :: others ->
  exists w',
    generate_markdown_from_sources language w = (Raise (ReadError name), w')
    /\ output_file w' = output_file w.
Proof.
  intros H. rewrite generate_run.
  assert (E : snd (collect language 0 []) = Some (ReadError name)).
  { unfold collect.
    rewrite (collect_each_unreadable _ _ unreadable).
    - now rewrite H.
    - apply Forall_forall. intros e _. apply collect_entry_unreadable. }
  rewrite E. eexists. split; reflexivity.
Qed.

Lemma read_failure_writes_nothing_witness :
  exists w',
    generate_markdown_from_sources
      [ File (txt "1_Introduction.md") (Some (txt "Hello"));
        Dir (txt "2_Setup") [ File (txt "1_Install.md") None ] ]
      {| lists := []; output_file := Some (txt "previous") |}
    = (Raise (ReadError (txt "1_Install.md")), w')
    /\ output_file w' = Some (txt "previous").
Proof.
  exact (read_failure_writes_nothing
           [ File (txt "1_Introduction.md") (Some (txt "Hello"));
             Dir (txt "2_Setup") [ File (txt "1_Install.md") None ] ]
           {| lists := []; output_file := Some (txt "previous") |}
           (txt "1_Install.md") [] eq_refl).
Defined.

(** ** Independent walks *)

(** C10: a walk that is given no list allocates a new, empty one.  Of
    two such walks, one after the other, the second returns an address
    that was not allocated before it, other than the address the first
    returned; it leaves the list of the first as it was; and its own
    list holds what the same walk collects in the empty world, so
    nothing of the first walk. *)
Theorem accumulator_fresh (dir1 dir2 : list entry) (d1 d2 : nat)
    (pp1 pp2 : str) (w w1 w2 : world) (l1 l2 : loc) :
  _process_files_in_directory dir1 d1 pp1 None w = (Ok l1, w1) ->
  _process_files_in_directory dir2 d2 pp2 None w1 = (Ok l2, w2) ->
  length (lists w1) <= l2
  /\ l1 <> l2
  /\ nth l1 (lists w2) [] = nth l1 (lists w1) []
  /\ exists l0 w0,
       _process_files_in_directory dir2 d2 pp2 None empty_world = (Ok l0, w0)
       /\ nth l2 (lists w2) [] = nth l0 (lists w0) [].
Proof.
  rewrite !process_files_fresh. intros H1 H2.
  destruct (snd (collect dir1 d1 pp1)) eqn:E1; [discriminate|].
  destruct (snd (collect dir2 d2 pp2)) eqn:E2; [discriminate|].
  simpl in H1, H2. injection H1 as <- <-. injection H2 as <- <-. simpl.
  rewrite !length_app. simpl. split; [lia|]. split; [lia|]. split.
  - rewrite (app_nth1 (lists w ++ _)); [reflexivity|].
    rewrite length_app. simpl. lia.
  - exists 0, {| lists := [fst (collect dir2 d2 pp2)]; output_file := None |}.
    split; [reflexivity|].
    replace (length (lists w) + 1)
      with (length (lists w ++ [fst (collect dir1 d1 pp1)]))
      by (rewrite length_app; reflexivity).
    now rewrite nth_middle.
Qed.

Lemma accumulator_fresh_witness :
  1 <= 1 /\ 0 <> 1 /\
  nth 0 [[{| content := txt "a"; depth := 0; prefix := txt "1.";
             title := txt "A" |}];
         [{| content := txt "b"; depth := 0; prefix := txt "1.";
             title := txt "B" |}]] []
  = [{| content := txt "a"; depth := 0; prefix := txt "1."; title := txt "A" |}]
  /\ exists l0 w0,
       _process_files_in_directory [File (txt "1_B.md") (Some (txt "b"))]
         0 [] None empty_world = (Ok l0, w0)
       /\ nth 1 [[{| content := txt "a"; depth := 0; prefix := txt "1.";
                     title := txt "A" |}];
                 [{| content := txt "b"; depth := 0; prefix := txt "1.";
                     title := txt "B" |}]] []
          = nth l0 (lists w0) [].
Proof.
  exact (accumulator_fresh
           [File (txt "1_A.md") (Some (txt "a"))]
           [File (txt "1_B.md") (Some (txt "b"))]
           0 0 [] [] empty_world
           {| lists := [[{| content := txt "a"; depth := 0;
                            prefix := txt "1."; title := txt "A" |}]];
              output_file := None |}
           {| lists := [[{| content := txt "a"; depth := 0;
                            prefix := txt "1."; title := txt "A" |}];
                        [{| content := txt "b"; depth := 0;
                            prefix := txt "1."; title := txt "B" |}]];
              output_file := None |}
           0 1 eq_refl eq_refl).
Defined.

(** ** The end-to-end scenario *)

(** C1, as the code has it: for the root directory with
    [1_Introduction.md] and [2_Setup/1_Install.md], in either listing
    order, the build succeeds and writes the heading [# Introduction],
    the line [Hello [there](#2-setup)], the heading [# Install] and the
    line [Install steps.], each followed by an empty line, and nothing
    else: the reference goes to the anchor of its own last segment. *)
Theorem end_to_end (w : world) :
  fst (generate_markdown_from_sources scenario w) = Ok tt
  /\ output_file (snd (generate_markdown_from_sources scenario w))
     = Some scenario_document
  /\ fst (generate_markdown_from_sources (rev scenario) w) = Ok tt
  /\ output_file (snd (generate_markdown_from_sources (rev scenario) w))
     = Some scenario_document.
Proof. rewrite !generate_run. repeat split. Qed.

(** C1 as stated fails: the line [Hello [there](#1-install)] is nowhere
    in the document that the build writes. *)
Lemma end_to_end_counterexample :
  option_map (occurs (txt "Hello [there](#1-install)"))
    (output_file (snd (generate_markdown_from_sources scenario empty_world)))
  = Some false.
Proof. reflexivity. Qed.

(** C2 as stated fails: the file [1_Diagram.svg.md] is parsed to the
    title [Diagram.svg], and the heading written for it reads
    [Diagram.png]. *)
Lemma section_of_heading_counterexample :
  generate_markdown_from_sources
    [File (txt "1_Diagram.svg.md") (Some (txt "x"))] empty_world
  = (Ok tt,
     {| lists := [[{| content := txt "x"; depth := 0; prefix := txt "1.";
                      title := txt "Diagram.svg" |}]];
        output_file :=
          Some (txt "# Diagram.png" ++ [nl; nl] ++ txt "x" ++ [nl; nl]) |})
  /\ starts_with (txt "# Diagram.svg")
       (section_of {| content := txt "x"; depth := 0; prefix := txt "1.";
                      title := txt "Diagram.svg" |}) = false.
Proof. split; reflexivity. Qed.

(** * Further properties *)

(** ** The order of strings and [sorted] *)

Lemma nat_of_ascii_inj (a b : ascii) : nat_of_ascii a = nat_of_ascii b -> a = b.
Proof.
  intros H. rewrite <- (ascii_nat_embedding a), <- (ascii_nat_embedding b).
  now rewrite H.
Qed.

Lemma str_leb_refl (a : str) : str_leb a a = true.
Proof.
  induction a as [|x a IH]; simpl; [reflexivity|].
  now rewrite Nat.ltb_irrefl.
Qed.

Lemma str_leb_antisym (a b : str) :
  str_leb a b = true -> str_leb b a = true -> a = b.
Proof.
  revert b; induction a as [|x a IH]; intros [|y b]; simpl; try congruence.
  destruct (nat_of_ascii x <? nat_of_ascii y) eqn:Exy;
    destruct (nat_of_ascii y <? nat_of_ascii x) eqn:Eyx; try congruence.
  - apply Nat.ltb_lt in Exy, Eyx. lia.
  - apply Nat.ltb_ge in Exy, Eyx. intros Hab Hba.
    f_equal; [apply nat_of_ascii_inj; lia | now apply IH].
Qed.

Lemma str_leb_trans (a b c : str) :
  str_leb a b = true -> str_leb b c = true -> str_leb a c = true.
Proof.
  revert b c; induction a as [|x a IH]; intros [|y b] [|z c]; simpl;
    try congruence.
  destruct (nat_of_ascii x <? nat_of_ascii y) eqn:Exy;
    destruct (nat_of_ascii y <? nat_of_ascii x) eqn:Eyx;
    destruct (nat_of_ascii y <? nat_of_ascii z) eqn:Eyz;
    destruct (nat_of_ascii z <? nat_of_ascii y) eqn:Ezy;
    destruct (nat_of_ascii x <? nat_of_ascii z) eqn:Exz;
    destruct (nat_of_ascii z <? nat_of_ascii x) eqn:Ezx;
    try congruence;
    repeat match goal with
           | H : (_ <? _) = true |- _ => apply Nat.ltb_lt in H
           | H : (_ <? _) = false |- _ => apply Nat.ltb_ge in H
           end; try lia.
  apply IH.
Qed.

Lemma str_leb_total (a b : str) : str_leb a b = true \/ str_leb b a = true.
Proof.
  revert b; induction a as [|x a IH]; intros [|y b]; simpl; auto.
  destruct (nat_of_ascii x <? nat_of_ascii y) eqn:Exy; auto.
  destruct (nat_of_ascii y <? nat_of_ascii x) eqn:Eyx; auto.
Qed.

(** X1: the comparison of [sorted] is a total order on strings, and a
    string comes before every string that it is a prefix of. *)
Theorem str_leb_total_order :
  (forall a, str_leb a a = true)
  /\ (forall a b, str_leb a b = true -> str_leb b a = true -> a = b)
  /\ (forall a b c, str_leb a b = true -> str_leb b c = true ->
                    str_leb a c = true)
  /\ (forall a b, str_leb a b = true \/ str_leb b a = true)
  /\ (forall p rest, str_leb p (p ++ rest) = true).
Proof.
  split; [exact str_leb_refl|]. split; [exact str_leb_antisym|].
  split; [exact str_leb_trans|]. split; [exact str_leb_total|].
  intros p rest. induction p as [|x p IH]; simpl; [reflexivity|].
  now rewrite Nat.ltb_irrefl.
Qed.

Lemma str_leb_total_order_witness :
  str_leb (txt "1.") (txt "2.1.") = true /\ txt "2." = txt "2.".
Proof.
  destruct str_leb_total_order as [_ [Hanti [Htrans _]]]. split.
  - exact (Htrans (txt "1.") (txt "1.5.") (txt "2.1.") eq_refl eq_refl).
  - exact (Hanti (txt "2.") (txt "2.") eq_refl eq_refl).
Defined.

Section SortedFacts.
Variable key : VTEMarkdownFile -> str.

Lemma insert_perm (x : VTEMarkdownFile) (l : list VTEMarkdownFile) :
  Permutation (insert key x l) (x :: l).
Proof.
  induction l as [|y l IH]; simpl; [reflexivity|].
  destruct (str_leb (key x) (key y)); [reflexivity|].
  rewrite IH. apply perm_swap.
Qed.

Lemma sorted_perm (l : list VTEMarkdownFile) : Permutation (sorted key l) l.
Proof.
  induction l as [|x l IH]; simpl; [reflexivity|].
  unfold sorted in *. simpl. rewrite insert_perm. now constructor.
Qed.

Lemma insert_sorted (x : VTEMarkdownFile) (l : list VTEMarkdownFile) :
  StronglySorted (key_le key) l -> StronglySorted (key_le key) (insert key x l).
Proof.
  induction 1 as [|y l Hl IH Hy]; simpl.
  - repeat constructor.
  - destruct (str_leb (key x) (key y)) eqn:E.
    + constructor; [now constructor|]. constructor; [exact E|].
      eapply Forall_impl; [|exact Hy]. intros z Hz. unfold key_le in *.
      now apply (str_leb_trans _ (key y)).
    + constructor; [exact IH|].
      apply (Permutation_Forall (Permutation_sym (insert_perm x l))).
      constructor; [|exact Hy].
      unfold key_le. destruct (str_leb_total (key x) (key y)); congruence.
Qed.

Lemma sorted_sorted (l : list VTEMarkdownFile) :
  StronglySorted (key_le key) (sorted key l).
Proof.
  induction l as [|x l IH]; [constructor|]. now apply insert_sorted.
Qed.

Lemma insert_filter (k : str) (x : VTEMarkdownFile)
    (l : list VTEMarkdownFile) :
  filter (fun y => str_eqb (key y) k) (insert key x l)
  = filter (fun y => str_eqb (key y) k) (x :: l).
Proof.
  induction l as [|y l IH]; [reflexivity|]. simpl insert.
  destruct (str_leb (key x) (key y)) eqn:E; [reflexivity|].
  change (filter (fun y0 => str_eqb (key y0) k) (y :: insert key x l))
    with (if str_eqb (key y) k
          then y :: filter (fun y0 => str_eqb (key y0) k) (insert key x l)
          else filter (fun y0 => str_eqb (key y0) k) (insert key x l)).
  rewrite IH. simpl.
  destruct (str_eqb (key y) k) eqn:Ey; [|reflexivity].
  destruct (str_eqb (key x) k) eqn:Ex; [|reflexivity].
  exfalso.
  assert (Eq : forall a b, str_eqb a b = true -> a = b).
  { clear. induction a as [|c a IH]; intros [|d b]; simpl; try congruence.
    intros H. apply andb_prop in H as [H1 H2].
    apply Ascii.eqb_eq in H1. f_equal; auto. }
  apply Eq in Ex, Ey. rewrite Ex, <- Ey, str_leb_refl in E. discriminate.
Qed.

End SortedFacts.

(** X2: [sorted] returns the fragments it was given, each as often as
    it was given, in ascending order of their keys. *)
Theorem sorted_ascending_permutation (key : VTEMarkdownFile -> str)
    (l : list VTEMarkdownFile) :
  Permutation (sorted key l) l /\ StronglySorted (key_le key) (sorted key l).
Proof. split; [apply sorted_perm | apply sorted_sorted]. Qed.

(** X3: [sorted] is stable: the fragments that have the same key keep
    the order in which they were given. *)
Theorem sorted_stable (key : VTEMarkdownFile -> str) (k : str)
    (l : list VTEMarkdownFile) :
  filter (fun x => str_eqb (key x) k) (sorted key l)
  = filter (fun x => str_eqb (key x) k) l.
Proof.
  induction l as [|x l IH]; [reflexivity|].
  unfold sorted in *. simpl fold_right. rewrite insert_filter.
  simpl. now rewrite IH.
Qed.

Lemma sorted_unique (key : VTEMarkdownFile -> str)
    (l1 l2 : list VTEMarkdownFile) :
  StronglySorted (key_le key) l1 -> StronglySorted (key_le key) l2 ->
  Permutation l1 l2 -> NoDup (map key l1) -> l1 = l2.
Proof.
  intros S1. revert l2. induction S1 as [|x l1 S1 IH Hx]; intros l2 S2 P N.
  - now apply Permutation_nil in P.
  - destruct l2 as [|y l2]; [now apply Permutation_sym, Permutation_nil in P|].
    inversion S2 as [|? ? S2' Hy]; subst.
    assert (Exy : x = y).
    { assert (Hin1 : In y (x :: l1))
        by (apply (Permutation_in _ (Permutation_sym P)); now left).
      assert (Hin2 : In x (y :: l2))
        by (apply (Permutation_in _ P); now left).
      destruct Hin1 as [E|Hin1]; [exact E|].
      destruct Hin2 as [E|Hin2]; [now symmetry|].
      rewrite Forall_forall in Hx, Hy.
      specialize (Hx _ Hin1). specialize (Hy _ Hin2). unfold key_le in *.
      pose proof (str_leb_antisym _ _ Hx Hy) as Ek.
      simpl in N. inversion N as [|? ? Hn _]; subst. exfalso. apply Hn.
      rewrite Ek. now apply in_map. }
    subst y. f_equal. apply IH; [exact S2'| |].
    + now apply Permutation_cons_inv in P.
    + simpl in N. now inversion N.
Qed.

Lemma sorted_perm_eq (key : VTEMarkdownFile -> str)
    (l1 l2 : list VTEMarkdownFile) :
  Permutation l1 l2 -> NoDup (map key l1) -> sorted key l1 = sorted key l2.
Proof.
  intros P N. apply (sorted_unique key); try apply sorted_sorted.
  - rewrite (sorted_perm key l1), (sorted_perm key l2). exact P.
  - apply (Permutation_NoDup (l := map key l1)); [|exact N].
    apply Permutation_map, Permutation_sym, sorted_perm.
Qed.

(** X4: with pairwise distinct prefixes the result of [sorted] does not
    depend on the order in which the fragments are given, and so
    neither does the text that the loop over it builds. *)
Theorem sorted_order_independent (l1 l2 : list VTEMarkdownFile) :
  Permutation l1 l2 -> NoDup (map prefix l1) ->
  sorted prefix l1 = sorted prefix l2
  /\ join_sections (sorted prefix l1) = join_sections (sorted prefix l2).
Proof.
  intros P N. rewrite (sorted_perm_eq prefix l1 l2 P N). now split.
Qed.

Lemma sorted_order_independent_witness :
  sorted prefix
    [ {| content := txt "b"; depth := 1; prefix := txt "2.1."; title := txt "B" |};
      {| content := txt "a"; depth := 0; prefix := txt "1."; title := txt "A" |} ]
  = sorted prefix
      [ {| content := txt "a"; depth := 0; prefix := txt "1."; title := txt "A" |};
        {| content := txt "b"; depth := 1; prefix := txt "2.1."; title := txt "B" |} ].
Proof.
  refine (proj1 (sorted_order_independent _ _ (perm_swap _ _ []) _)).
  repeat constructor; simpl; intuition discriminate.
Defined.

(** ** More on the walk *)

Lemma update_length (l : loc) (f : list VTEMarkdownFile -> list VTEMarkdownFile)
    (ls : list (list VTEMarkdownFile)) :
  length (update l f ls) = length ls.
Proof.
  revert l; induction ls as [|x ls IH]; intros [|l]; simpl; auto.
Qed.

Lemma nth_update_other (l l' : loc)
    (f : list VTEMarkdownFile -> list VTEMarkdownFile)
    (ls : list (list VTEMarkdownFile)) :
  l' <> l -> nth l' (update l f ls) [] = nth l' ls [].
Proof.
  revert l l'; induction ls as [|x ls IH]; intros [|l] [|l'] H; simpl;
    try reflexivity; try congruence.
  apply IH. congruence.
Qed.

(** X5: a walk that is given a list changes nothing but this list: the
    output file, the number of lists and every other list stay as they
    were, and the address it returns is the one it was given. *)
Theorem walk_frame (directory : list entry) (current_depth : nat)
    (parent_prefix : str) (l : loc) (w : world) :
  let (r, w') :=
    _process_files_in_directory directory current_depth parent_prefix
      (Some l) w in
  output_file w' = output_file w
  /\ length (lists w') = length (lists w)
  /\ (forall l', l' <> l -> nth l' (lists w') [] = nth l' (lists w) [])
  /\ (forall l', r = Ok l' -> l' = l).
Proof.
  rewrite process_files_run. unfold after. simpl.
  split; [reflexivity|]. split; [apply update_length|]. split.
  - intros l' H. now apply nth_update_other.
  - intros l'. destruct (snd (collect directory current_depth parent_prefix));
      simpl; congruence.
Qed.

Lemma walk_frame_witness :
  nth 0 (lists (snd (_process_files_in_directory scenario 0 [] (Some 1)
                       {| lists := [[]; []]; output_file := None |}))) []
  = [].
Proof.
  pose proof (walk_frame scenario 0 [] 1
                {| lists := [[]; []]; output_file := None |}) as H.
  rewrite process_files_run in H.
  destruct H as [_ [_ [H _]]]. exact (H 0 (Nat.neq_0_succ 0)).
Defined.

Lemma collect_each_ok (A : Type)
    (f : A -> list VTEMarkdownFile * option exn) (xs : list A) :
  snd (collect_each f xs) = None ->
  fst (collect_each f xs) = flat_map (fun x => fst (f x)) xs
  /\ Forall (fun x => snd (f x) = None) xs.
Proof.
  induction xs as [|x xs IH]; simpl; [now split|].
  destruct (f x) as [fs [e|]] eqn:E; simpl; [discriminate|].
  destruct (collect_each f xs) as [fs' r]. simpl in *. intros ->.
  destruct (IH eq_refl) as [-> H]. split; [reflexivity|].
  constructor; [now rewrite E|exact H].
Qed.

Lemma collect_each_ok_rev (A : Type)
    (f : A -> list VTEMarkdownFile * option exn) (xs : list A) :
  Forall (fun x => snd (f x) = None) xs -> snd (collect_each f xs) = None.
Proof.
  induction 1 as [|x xs Hx Hxs IH]; simpl; [reflexivity|].
  destruct (f x) as [fs r]. simpl in Hx. subst r.
  destruct (collect_each f xs) as [fs' r]. exact IH.
Qed.

Lemma collect_readable (directory : list entry) (d : nat) (pp : str) :
  flat_map unreadable directory = [] -> snd (collect directory d pp) = None.
Proof.
  intros H. unfold collect.
  rewrite (collect_each_unreadable _ _ unreadable).
  - now rewrite H.
  - apply Forall_forall. intros e _. apply collect_entry_unreadable.
Qed.

(** X6: when every file of the content tree can be read, the build
    succeeds and writes a document, and this document depends on the
    tree alone: not on what the output file held before, nor on the
    lists of earlier walks. *)
Theorem generate_succeeds (language : list entry) :
  flat_map unreadable language = [] ->
  exists document,
    forall w,
      fst (generate_markdown_from_sources language w) = Ok tt
      /\ output_file (snd (generate_markdown_from_sources language w))
         = Some document.
Proof.
  intros H. eexists. intros w. rewrite generate_run.
  rewrite (collect_readable language 0 [] H). split; reflexivity.
Qed.

Lemma generate_succeeds_witness :
  exists document,
    forall w,
      fst (generate_markdown_from_sources scenario w) = Ok tt
      /\ output_file (snd (generate_markdown_from_sources scenario w))
         = Some document.
Proof. exact (generate_succeeds scenario eq_refl). Defined.

Lemma collect_entry_count (e : entry) :
  forall d pp,
    snd (collect_entry d pp e) = None ->
    length (fst (collect_entry d pp e)) = count_files e.
Proof.
  induction e as [name text|name children IH] using entry_induction;
    intros d pp.
  - rewrite collect_entry_file.
    destruct (nth_error (title_tokens (stem name)) 0); [|discriminate].
    destruct text; [reflexivity|discriminate].
  - rewrite collect_entry_dir.
    destruct (nth_error (title_tokens (stem name)) 0) as [token|];
      [|discriminate].
    intros H. destruct (collect_each_ok _ _ _ H) as [-> Hall].
    simpl count_files. clear H.
    induction children as [|c children IHc]; [reflexivity|].
    inversion IH; subst. inversion Hall; subst. simpl.
    rewrite length_app. f_equal; auto.
Qed.

(** X7: a walk that succeeds collects exactly one fragment for each
    file of the tree; the directories add none. *)
Theorem walk_counts_files (directory : list entry) (current_depth : nat)
    (parent_prefix : str) (w w' : world) (l : loc) :
  _process_files_in_directory directory current_depth parent_prefix None w
  = (Ok l, w') ->
  length (nth l (lists w') []) = list_sum (map count_files directory).
Proof.
  rewrite process_files_fresh. intros H.
  destruct (snd (collect directory current_depth parent_prefix)) eqn:E;
    [discriminate|].
  simpl in H. injection H as <- <-. simpl. rewrite nth_middle.
  unfold collect in *. destruct (collect_each_ok _ _ _ E) as [-> Hall].
  clear E. induction directory as [|e directory IH]; [reflexivity|].
  inversion Hall; subst. simpl. rewrite length_app. f_equal; auto.
  now apply collect_entry_count.
Qed.

Lemma walk_counts_files_witness :
  length [ {| content := txt "Hello [there](!/2_Setup)"; depth := 0;
              prefix := txt "1."; title := txt "Introduction" |};
           {| content := txt "Install steps."; depth := 1;
              prefix := txt "2.1."; title := txt "Install" |} ]
  = 2.
Proof.
  exact (walk_counts_files scenario 0 [] empty_world
           {| lists := [[ {| content := txt "Hello [there](!/2_Setup)";
                             depth := 0; prefix := txt "1.";
                             title := txt "Introduction" |};
                          {| content := txt "Install steps."; depth := 1;
                             prefix := txt "2.1."; title := txt "Install" |} ]];
              output_file := None |} 0 eq_refl).
Defined.

Lemma ordering_token_first (name token : str) :
  nth_error (title_tokens (stem name)) 0 = Some token ->
  ordering_token name = token.
Proof.
  unfold ordering_token. destruct (title_tokens (stem name)); simpl; congruence.
Qed.

Lemma fragment_of_below (d : nat) (pp dname : str) (dirs : list str)
    (name text : str) :
  fragment_of (d + 1) (pp ++ ordering_token dname ++ txt ".") dirs name text
  = fragment_of d pp (dname :: dirs) name text.
Proof.
  unfold fragment_of. simpl. f_equal. lia.
Qed.

Lemma collect_entry_In (e : entry) :
  forall d pp f,
    snd (collect_entry d pp e) = None ->
    (In f (fst (collect_entry d pp e)) <->
     exists dirs name text,
       file_in e dirs name text /\ f = fragment_of d pp dirs name text).
Proof.
  induction e as [name text|name children IH] using entry_induction;
    intros d pp f.
  - rewrite collect_entry_file.
    destruct (nth_error (title_tokens (stem name)) 0) as [token|] eqn:E;
      [|discriminate].
    destruct text as [text|]; [|discriminate]. intros _. cbv [fst].
    assert (F : {| content := text; depth := d;
                   prefix := pp ++ token ++ txt ".";
                   title := join (txt " ")
                              (skipn 1 (title_tokens (stem name))) |}
                = fragment_of d pp [] name text).
    { unfold fragment_of, entry_title. simpl.
      rewrite (ordering_token_first _ _ E). f_equal. lia. }
    rewrite F. split.
    + intros [<-|[]]. exists [], name, text. split; [constructor|reflexivity].
    + intros [dirs [n [t [Hin ->]]]]. inversion Hin; subst. now left.
  - rewrite collect_entry_dir.
    destruct (nth_error (title_tokens (stem name)) 0) as [token|] eqn:E;
      [|discriminate].
    rewrite <- (ordering_token_first _ _ E).
    intros H. destruct (collect_each_ok _ _ _ H) as [-> Hall].
    rewrite in_flat_map. rewrite Forall_forall in IH, Hall. split.
    + intros [c [Hc Hf]].
      apply (IH c Hc _ _ _ (Hall c Hc)) in Hf as [dirs [n [t [Hin ->]]]].
      exists (name :: dirs), n, t. split.
      * now apply file_below with c.
      * apply fragment_of_below.
    + intros [dirs [n [t [Hin ->]]]]. inversion Hin; subst.
      exists c. split; [assumption|].
      apply (IH c); [assumption|now apply Hall|].
      exists dirs0, n, t. split; [assumption|].
      symmetry. apply fragment_of_below.
Qed.

(** X8: a walk that succeeds collects, for each file of the tree, the
    fragment with the text of the file, the number of the directories
    above it (added to the depth of the start) as depth, the ordering
    tokens of these directories and of the file, each followed by a
    dot, as prefix, and the title of its name; and it collects nothing
    else. *)
Theorem walk_fragments (directory : list entry) (current_depth : nat)
    (parent_prefix : str) (w w' : world) (l : loc) (f : VTEMarkdownFile) :
  _process_files_in_directory directory current_depth parent_prefix None w
  = (Ok l, w') ->
  (In f (nth l (lists w') []) <->
   exists dirs name text,
     file_at directory dirs name text
     /\ f = fragment_of current_depth parent_prefix dirs name text).
Proof.
  rewrite process_files_fresh. intros H.
  destruct (snd (collect directory current_depth parent_prefix)) eqn:E;
    [discriminate|].
  simpl in H. injection H as <- <-. simpl. rewrite nth_middle.
  unfold collect in *. destruct (collect_each_ok _ _ _ E) as [-> Hall].
  rewrite in_flat_map. rewrite Forall_forall in Hall. split.
  - intros [e [He Hf]].
    apply (collect_entry_In e _ _ _ (Hall e He)) in Hf
      as [dirs [n [t [Hin ->]]]].
    exists dirs, n, t. split; [now exists e|reflexivity].
  - intros [dirs [n [t [[e [He Hin]] ->]]]]. exists e. split; [exact He|].
    apply (collect_entry_In e); [now apply Hall|].
    now exists dirs, n, t.
Qed.

Lemma walk_fragments_witness :
  In {| content := txt "Install steps."; depth := 1; prefix := txt "2.1.";
        title := txt "Install" |}
     [ {| content := txt "Hello [there](!/2_Setup)"; depth := 0;
          prefix := txt "1."; title := txt "Introduction" |};
       {| content := txt "Install steps."; depth := 1;
          prefix := txt "2.1."; title := txt "Install" |} ].
Proof.
  apply (walk_fragments scenario 0 [] empty_world
           {| lists := [[ {| content := txt "Hello [there](!/2_Setup)";
                             depth := 0; prefix := txt "1.";
                             title := txt "Introduction" |};
                          {| content := txt "Install steps."; depth := 1;
                             prefix := txt "2.1."; title := txt "Install" |} ]];
              output_file := None |} 0 _ eq_refl).
  exists [txt "2_Setup"], (txt "1_Install.md"), (txt "Install steps.").
  split; [|reflexivity].
  exists (Dir (txt "2_Setup")
            [ File (txt "1_Install.md") (Some (txt "Install steps.")) ]).
  split; [right; now left|].
  apply file_below with (File (txt "1_Install.md") (Some (txt "Install steps.")));
    [now left|constructor].
Defined.

(** X9: the order in which [iterdir] lists the root directory does not
    matter: when the walk of one listing succeeds with pairwise
    distinct prefixes, the build from any other listing of the same
    entries succeeds and writes the same document. *)
Theorem listing_order_independent (language language' : list entry)
    (w w1 : world) (l : loc) :
  Permutation language language' ->
  _process_files_in_directory language 0 [] None w = (Ok l, w1) ->
  NoDup (map prefix (nth l (lists w1) [])) ->
  fst (generate_markdown_from_sources language' w) = Ok tt
  /\ output_file (snd (generate_markdown_from_sources language' w))
     = output_file (snd (generate_markdown_from_sources language w)).
Proof.
  intros P. rewrite process_files_fresh. intros H.
  destruct (snd (collect language 0 [])) eqn:E; [discriminate|].
  simpl in H. injection H as <- <-. simpl. rewrite nth_middle. intros N.
  rewrite !generate_run, E. unfold collect in *.
  destruct (collect_each_ok _ _ _ E) as [F Hall].
  assert (E' : snd (collect_each (collect_entry 0 []) language') = None).
  { apply collect_each_ok_rev. now apply (Permutation_Forall P). }
  rewrite E'. simpl. split; [reflexivity|]. do 2 f_equal.
  destruct (collect_each_ok _ _ _ E') as [F' _].
  symmetry. apply sorted_perm_eq; [|exact N].
  rewrite F, F'. now apply Permutation_flat_map.
Qed.

Lemma listing_order_independent_witness :
  fst (generate_markdown_from_sources (rev scenario) empty_world) = Ok tt
  /\ output_file (snd (generate_markdown_from_sources (rev scenario) empty_world))
     = output_file (snd (generate_markdown_from_sources scenario empty_world)).
Proof.
  refine (listing_order_independent scenario (rev scenario) empty_world
            {| lists := [[ {| content := txt "Hello [there](!/2_Setup)";
                              depth := 0; prefix := txt "1.";
                              title := txt "Introduction" |};
                           {| content := txt "Install steps."; depth := 1;
                              prefix := txt "2.1."; title := txt "Install" |} ]];
               output_file := None |} 0 (perm_swap _ _ []) eq_refl _).
  repeat constructor; simpl; intuition discriminate.
Defined.

(** ** More on names *)

Lemma join_split (sep : ascii) (s : str) : join [sep] (split sep s) = s.
Proof.
  induction s as [|c s IH]; [reflexivity|]. simpl split.
  pose proof (split_not_nil sep s) as Hne.
  destruct (Ascii.eqb c sep) eqn:E.
  - apply Ascii.eqb_eq in E. subst c.
    destruct (split sep s) as [|t ts]; [congruence|].
    change (join [sep] ([] :: t :: ts)) with (sep :: join [sep] (t :: ts)).
    now rewrite IH.
  - destruct (split sep s) as [|t ts]; [congruence|].
    rewrite <- IH. destruct ts; reflexivity.
Qed.

Lemma split_fields (p : ascii -> bool) (sep : ascii) (s : str) :
  forallb p s = true -> Forall (fun t => forallb p t = true) (split sep s).
Proof.
  induction s as [|c s IH]; simpl; [repeat constructor|].
  intros H. apply andb_prop in H as [Hc H]. specialize (IH H).
  destruct (Ascii.eqb c sep); [now constructor|].
  destruct (split sep s) as [|t ts]; [repeat constructor; simpl; now rewrite Hc|].
  inversion IH; subst. constructor; [simpl; now rewrite Hc|assumption].
Qed.

Lemma split_fields_no_sep (sep : ascii) (s : str) :
  Forall (fun t => forallb (fun c => negb (Ascii.eqb c sep)) t = true)
    (split sep s).
Proof.
  induction s as [|c s IH]; simpl; [repeat constructor|].
  destruct (Ascii.eqb c sep) eqn:E; [now constructor|].
  destruct (split sep s) as [|t ts]; [repeat constructor; simpl; now rewrite E|].
  inversion IH; subst. constructor; [simpl; now rewrite E|assumption].
Qed.

Lemma replace_char_clean (a b : ascii) (s : str) :
  Ascii.eqb b a = false ->
  forallb (fun c => negb (Ascii.eqb c a)) (replace_char a b s) = true.
Proof.
  intros Hab. induction s as [|c s IH]; [reflexivity|]. simpl.
  rewrite IH, andb_true_r. destruct (Ascii.eqb a c) eqn:E.
  - now rewrite Hab.
  - now rewrite Ascii.eqb_sym, E.
Qed.

Lemma title_tokens_replace (name : str) :
  title_tokens name = split " " (replace_char "_" " " name).
Proof.
  unfold title_tokens, str_replace.
  change (txt "_") with ["_"%char]. change (txt " ") with [" "%char].
  now rewrite re_sub_char.
Qed.

(** X10: the tokens of a name, joined by single spaces, give the name
    back with a space for every underscore; so, for a name with more
    than one token, the ordering token, a space and the title make up
    the name. *)
Theorem title_tokens_round_trip (name : str) :
  join (txt " ") (title_tokens name) = replace_char "_" " " name
  /\ (skipn 1 (title_tokens name) <> [] ->
      nth 0 (title_tokens name) [] ++ txt " "
        ++ join (txt " ") (skipn 1 (title_tokens name))
      = replace_char "_" " " name).
Proof.
  assert (E : join (txt " ") (title_tokens name) = replace_char "_" " " name).
  { rewrite title_tokens_replace. apply join_split. }
  split; [exact E|]. rewrite <- E.
  destruct (title_tokens name) as [|t [|u ts]]; simpl; congruence.
Qed.

Lemma title_tokens_round_trip_witness :
  txt "03" ++ txt " " ++ txt "Drawing a triangle"
  = txt "03 Drawing a triangle".
Proof.
  exact (proj2 (title_tokens_round_trip (txt "03_Drawing_a_triangle"))
           ltac:(discriminate)).
Defined.

(** X11: no token of a name has a space or an underscore in it, so
    neither the ordering token nor a word of the title has one. *)
Theorem title_tokens_token_like (name : str) :
  Forall token_like (title_tokens name).
Proof.
  rewrite title_tokens_replace. unfold token_like.
  pose proof (split_fields_no_sep " " (replace_char "_" " " name)) as H1.
  pose proof (split_fields (fun c => negb (Ascii.eqb c "_")) " "
                (replace_char "_" " " name)
                (replace_char_clean "_" " " name eq_refl)) as H2.
  rewrite Forall_forall in *. intros t Ht.
  specialize (H1 t Ht). specialize (H2 t Ht).
  rewrite forallb_forall in *. intros c Hc.
  now rewrite (H1 c Hc), (H2 c Hc).
Qed.

(** *** Stems and suffixes *)

Lemma rfind_none (c : ascii) (s : str) :
  forallb (fun x => negb (Ascii.eqb x c)) s = true -> rfind c s = None.
Proof.
  induction s as [|x s IH]; simpl; [reflexivity|].
  intros H. apply andb_prop in H as [Hx H]. rewrite (IH H).
  apply negb_true_iff in Hx. now rewrite Hx.
Qed.

Lemma rfind_last (c : ascii) (a b : str) :
  forallb (fun x => negb (Ascii.eqb x c)) b = true ->
  rfind c (a ++ c :: b) = Some (length a).
Proof.
  intros H. induction a as [|x a IH]; simpl.
  - now rewrite (rfind_none c b H), Ascii.eqb_refl.
  - now rewrite IH.
Qed.

Lemma rfind_spec (c : ascii) (s : str) (i : nat) :
  rfind c s = Some i ->
  exists a b, s = a ++ c :: b /\ length a = i
              /\ forallb (fun x => negb (Ascii.eqb x c)) b = true.
Proof.
  revert i; induction s as [|x s IH]; intros i; simpl; [discriminate|].
  destruct (rfind c s) as [j|] eqn:E.
  - intros [= <-]. destruct (IH j eq_refl) as [a [b [-> [<- Hb]]]].
    now exists (x :: a), b.
  - destruct (Ascii.eqb x c) eqn:Ex; [|discriminate]. intros [= <-].
    apply Ascii.eqb_eq in Ex. subst x. exists [], s. repeat split.
    clear IH. induction s as [|y s IH]; [reflexivity|]. simpl in *.
    destruct (rfind c s); [discriminate|].
    destruct (Ascii.eqb y c); [discriminate|]. now rewrite IH.
Qed.

Lemma stem_suffix_parts (name : str) :
  stem name ++ suffix name = name
  /\ (suffix name <> [] ->
      stem name <> []
      /\ exists ext, suffix name = "."%char :: ext /\ ext <> []
                     /\ forallb (fun x => negb (Ascii.eqb x ".")) ext = true).
Proof.
  unfold stem, suffix. destruct (rfind "." name) as [i|] eqn:E.
  - destruct ((0 <? i) && (i <? length name - 1)) eqn:C.
    + split; [apply firstn_skipn|]. intros _.
      apply andb_prop in C as [C1 C2].
      apply Nat.ltb_lt in C1, C2.
      destruct (rfind_spec _ _ _ E) as [a [b [-> [<- Hb]]]].
      rewrite length_app in C2. simpl in C2.
      rewrite firstn_app, firstn_all, Nat.sub_diag. simpl firstn.
      rewrite app_nil_r, skipn_app, skipn_all, Nat.sub_diag. simpl.
      split; [destruct a; [simpl in C1; lia|discriminate]|].
      exists b. repeat split; [|exact Hb].
      destruct b; [simpl in C2; lia|discriminate].
    + split; [apply app_nil_r|congruence].
  - split; [apply app_nil_r|congruence].
Qed.

(** X12: a name is its stem followed by its suffix; and a suffix that
    is not empty is a dot and at least one more character, none of them
    a dot, behind a stem that is not empty. *)
Theorem stem_suffix (name : str) :
  stem name ++ suffix name = name
  /\ (suffix name <> [] ->
      stem name <> []
      /\ exists ext, suffix name = "."%char :: ext /\ ext <> []
                     /\ forallb (fun x => negb (Ascii.eqb x ".")) ext = true).
Proof. exact (stem_suffix_parts name). Qed.

Lemma stem_suffix_witness :
  txt "triangle" <> []
  /\ exists ext, txt ".svg" = "."%char :: ext /\ ext <> []
                 /\ forallb (fun x => negb (Ascii.eqb x ".")) ext = true.
Proof.
  exact (proj2 (stem_suffix (txt "triangle.svg")) ltac:(discriminate)).
Defined.

Lemma stem_suffix_ext (base ext : str) :
  base <> [] -> ext <> [] ->
  forallb (fun x => negb (Ascii.eqb x ".")) ext = true ->
  stem (base ++ "."%char :: ext) = base
  /\ suffix (base ++ "."%char :: ext) = "."%char :: ext.
Proof.
  intros Hb He Hd. unfold stem, suffix. rewrite (rfind_last "." base ext Hd).
  assert (C : (0 <? length base)
              && (length base <? length (base ++ "."%char :: ext) - 1) = true).
  { rewrite length_app. simpl. apply andb_true_intro. split.
    - apply Nat.ltb_lt. destruct base; [congruence|simpl; lia].
    - apply Nat.ltb_lt. destruct ext; [congruence|simpl; lia]. }
  rewrite C. split.
  - rewrite firstn_app, firstn_all, Nat.sub_diag. simpl. apply app_nil_r.
  - rewrite skipn_app, skipn_all, Nat.sub_diag. reflexivity.
Qed.

(** X13: the stem of a name drops the extension, a dot and some
    characters without dot behind a base that is not empty; a name
    without dot, a name that only starts with a dot and a name that
    ends with a dot are their own stems. *)
Theorem stem_extension (base ext plain : str) :
  base <> [] -> ext <> [] ->
  forallb (fun x => negb (Ascii.eqb x ".")) ext = true ->
  forallb (fun x => negb (Ascii.eqb x ".")) plain = true ->
  stem (base ++ txt "." ++ ext) = base
  /\ stem plain = plain
  /\ stem (txt "." ++ plain) = txt "." ++ plain
  /\ stem (base ++ txt ".") = base ++ txt ".".
Proof.
  intros Hb He Hd Hp. split; [|split; [|split]].
  - apply (stem_suffix_ext base ext Hb He Hd).
  - unfold stem. now rewrite (rfind_none "." plain Hp).
  - unfold stem. change (txt "." ++ plain) with ([] ++ "."%char :: plain).
    now rewrite (rfind_last "." [] plain Hp).
  - unfold stem. change (base ++ txt ".") with (base ++ "."%char :: []).
    rewrite (rfind_last "." base [] eq_refl), length_app. simpl.
    replace (length base <? length base + 1 - 1) with false;
      [now rewrite andb_false_r|].
    symmetry. apply Nat.ltb_ge. lia.
Qed.

Lemma stem_extension_witness :
  stem (txt "1_Introduction.md") = txt "1_Introduction"
  /\ stem (txt "2_Setup") = txt "2_Setup"
  /\ stem (txt ".2_Setup") = txt ".2_Setup"
  /\ stem (txt "1_Introduction.") = txt "1_Introduction.".
Proof.
  exact (stem_extension (txt "1_Introduction") (txt "md") (txt "2_Setup")
           ltac:(discriminate) ltac:(discriminate) eq_refl eq_refl).
Defined.

(** ** The conversion of the images *)

Lemma str_eqb_eq (a b : str) : str_eqb a b = true <-> a = b.
Proof.
  revert b; induction a as [|x a IH]; intros [|y b]; simpl;
    try (split; congruence).
  rewrite andb_true_iff, Ascii.eqb_eq, IH. split.
  - intros [-> ->]. reflexivity.
  - intros [= -> ->]. now split.
Qed.

Lemma with_suffix_stem (name new_suffix : str) :
  suffix name <> [] -> with_suffix name new_suffix = stem name ++ new_suffix.
Proof.
  intros H. unfold with_suffix. destruct (suffix name) eqn:E; [congruence|].
  rewrite <- E. f_equal. clear E H.
  destruct (stem_suffix_parts name) as [S _].
  remember (stem name) as st eqn:Est. remember (suffix name) as su eqn:Esu.
  clear Est Esu. subst name.
  rewrite length_app, Nat.add_sub, firstn_app, firstn_all, Nat.sub_diag.
  simpl. apply app_nil_r.
Qed.

Lemma svg_to_png (e : str) :
  suffix e = txt ".svg" ->
  with_suffix e (txt ".png") = stem e ++ txt ".png"
  /\ stem (stem e ++ txt ".png") = stem e
  /\ suffix (stem e ++ txt ".png") = txt ".png".
Proof.
  intros H. split.
  - apply with_suffix_stem. rewrite H. discriminate.
  - destruct (stem_suffix_parts e) as [_ S].
    destruct S as [Hne _]; [rewrite H; discriminate|].
    apply (stem_suffix_ext (stem e) (txt "png") Hne); [discriminate|reflexivity].
Qed.

(** X14: [convert_svg_to_png] returns, in the order of the listing, one
    name for each entry whose suffix is [.svg], and no other: the stem
    of the entry followed by [.png], a name with the same stem and the
    suffix [.png]. *)
Theorem convert_svg_to_png_names (images_folder : list str) :
  convert_svg_to_png images_folder
  = map (fun e => stem e ++ txt ".png")
      (filter (fun e => str_eqb (suffix e) (txt ".svg")) images_folder)
  /\ Forall (fun p => suffix p = txt ".png")
       (convert_svg_to_png images_folder)
  /\ (forall e, In e images_folder -> suffix e = txt ".svg" ->
                In (stem e ++ txt ".png") (convert_svg_to_png images_folder)
                /\ stem (stem e ++ txt ".png") = stem e).
Proof.
  assert (E : convert_svg_to_png images_folder
              = map (fun e => stem e ++ txt ".png")
                  (filter (fun e => str_eqb (suffix e) (txt ".svg"))
                     images_folder)).
  { induction images_folder as [|e l IH]; [reflexivity|].
    cbn [convert_svg_to_png filter].
    destruct (str_eqb (suffix e) (txt ".svg")) eqn:S; [|exact IH].
    apply str_eqb_eq in S. cbn [map].
    now rewrite (proj1 (svg_to_png e S)), IH. }
  split; [exact E|]. rewrite E. split.
  - apply Forall_forall. intros p Hp. apply in_map_iff in Hp as [e [<- He]].
    apply filter_In in He as [_ S]. apply str_eqb_eq in S.
    apply (svg_to_png e S).
  - intros e He S. split; [|apply (svg_to_png e S)].
    apply in_map_iff. exists e. split; [reflexivity|].
    apply filter_In. split; [exact He|]. now apply str_eqb_eq.
Qed.

Lemma convert_svg_to_png_names_witness :
  In (txt "a.b" ++ txt ".png")
     (convert_svg_to_png [txt "logo.png"; txt "a.b.svg"; txt ".svg"; txt "svg"])
  /\ stem (txt "a.b" ++ txt ".png") = txt "a.b".
Proof.
  exact (proj2 (proj2 (convert_svg_to_png_names
                         [txt "logo.png"; txt "a.b.svg"; txt ".svg"; txt "svg"]))
           (txt "a.b.svg") ltac:(right; left; reflexivity) eq_refl).
Defined.

Lemma first_char_free (p0 : ascii) (pat rep h t : str) :
  forallb (fun c => negb (Ascii.eqb c p0)) h = true ->
  match_free (literal (p0 :: pat) rep) h t = true.
Proof.
  induction h as [|c h IH]; simpl; [reflexivity|].
  intros H. apply andb_prop in H as [Hc H].
  unfold literal at 1. simpl. apply negb_true_iff in Hc.
  rewrite Ascii.eqb_sym, Hc. simpl. now apply IH.
Qed.

(** X15: for an image whose base name has no dot, the name that step 2
    of the rewriter puts in place of [base.svg] is the name that
    [convert_svg_to_png] returns for the file [base.svg]. *)
Theorem converted_name_is_rewritten_name (base : str) :
  base <> [] ->
  forallb (fun c => negb (Ascii.eqb c ".")) base = true ->
  convert_svg_to_png [base ++ txt ".svg"] = [fix_image_ext (base ++ txt ".svg")]
  /\ fix_image_ext (base ++ txt ".svg") = base ++ txt ".png".
Proof.
  intros Hne Hd.
  assert (F : fix_image_ext (base ++ txt ".svg") = base ++ txt ".png").
  { unfold fix_image_ext.
    rewrite <- (app_nil_r (txt ".svg")).
    rewrite literal_law; [reflexivity|discriminate|].
    now apply first_char_free. }
  split; [|exact F]. rewrite F.
  destruct (stem_suffix_ext base (txt "svg") Hne ltac:(discriminate) eq_refl)
    as [St Su].
  change (base ++ "."%char :: txt "svg") with (base ++ txt ".svg") in *.
  cbn [convert_svg_to_png]. rewrite Su.
  change (str_eqb (txt ".svg") (txt ".svg")) with true. cbv iota.
  now rewrite (proj1 (svg_to_png _ Su)), St.
Qed.

Lemma converted_name_is_rewritten_name_witness :
  convert_svg_to_png [txt "triangle" ++ txt ".svg"]
  = [fix_image_ext (txt "triangle" ++ txt ".svg")]
  /\ fix_image_ext (txt "triangle" ++ txt ".svg") = txt "triangle" ++ txt ".png".
Proof.
  exact (converted_name_is_rewritten_name (txt "triangle")
           ltac:(discriminate) eq_refl).
Defined.

(** ** More on the rewriter *)

Lemma starts_with_length (pat s : str) :
  starts_with pat s = true -> length pat <= length s.
Proof.
  intros H. destruct (starts_with_inv _ _ H) as [rest ->].
  rewrite length_app. lia.
Qed.

Lemma sub_scan_length (pat rep : str) :
  length pat = length rep -> pat <> [] ->
  forall s k, length (sub_scan (literal pat rep) k s) = length s - k.
Proof.
  intros Hlen Hne. induction s as [|c s IH]; intros k; [reflexivity|].
  destruct k as [|k]; simpl.
  - unfold literal at 1.
    destruct (starts_with pat (c :: s)) eqn:E.
    + apply starts_with_length in E. simpl in E.
      rewrite length_app, IH, <- Hlen.
      destruct pat; [congruence|]. simpl in *. lia.
    + simpl. rewrite IH. lia.
  - apply IH.
Qed.

(** What the scan copies in front of the first replacement was in the
    text: a string without the first character of the replacement that
    starts the result starts the text. *)
Lemma copied_prefix (pat rep' : str) (r0 : ascii) (x : str) :
  forallb (fun a => negb (Ascii.eqb a r0)) x = true ->
  forall s, starts_with x (re_sub (literal pat (r0 :: rep')) s) = true ->
            starts_with x s = true.
Proof.
  unfold re_sub. induction x as [|a x IH]; [reflexivity|].
  simpl forallb. intros H. apply andb_prop in H as [Ha H].
  intros [|c s]; [easy|]. simpl sub_scan. unfold literal at 1.
  destruct (starts_with pat (c :: s)).
  - simpl. apply negb_true_iff in Ha. now rewrite Ha.
  - simpl. intros E. apply andb_prop in E as [E1 E2]. rewrite E1. simpl.
    now apply IH.
Qed.

(** A substitution leaves no occurrence of its pattern when the
    replacement starts with a character that the rest of the pattern
    does not have and brings no occurrence with it. *)
Lemma literal_clean (p0 : ascii) (pat' : str) (r0 : ascii) (rep' : str) :
  forallb (fun a => negb (Ascii.eqb a r0)) pat' = true ->
  (forall r, occurs (p0 :: pat') r = false ->
             occurs (p0 :: pat') ((r0 :: rep') ++ r) = false) ->
  forall s k,
    occurs (p0 :: pat') (sub_scan (literal (p0 :: pat') (r0 :: rep')) k s)
    = false.
Proof.
  intros Hr Hrep. induction s as [|c s IH]; intros k; [reflexivity|].
  destruct k as [|k]; [|apply IH]. simpl sub_scan. unfold literal at 1.
  destruct (starts_with (p0 :: pat') (c :: s)) eqn:E.
  - apply Hrep, IH.
  - change (occurs (p0 :: pat')
              (c :: sub_scan (literal (p0 :: pat') (r0 :: rep')) 0 s))
      with (starts_with (p0 :: pat')
              (c :: sub_scan (literal (p0 :: pat') (r0 :: rep')) 0 s)
            || occurs (p0 :: pat')
                 (sub_scan (literal (p0 :: pat') (r0 :: rep')) 0 s)).
    rewrite IH, orb_false_r.
    destruct (starts_with (p0 :: pat')
                (c :: sub_scan (literal (p0 :: pat') (r0 :: rep')) 0 s))
      eqn:E'; [|reflexivity].
    simpl in E, E'. apply andb_prop in E' as [E1 E2].
    apply (copied_prefix (p0 :: pat') rep' r0 pat' Hr) in E2.
    now rewrite E1, E2 in E.
Qed.

(** X16: step 2 replaces [.svg] wherever it stands, the text in front
    of the first occurrence being copied, and never changes the length
    of the text. *)
Theorem fix_image_ext_every_occurrence (pre post : str) :
  match_free (literal (txt ".svg") (txt ".png")) pre (txt ".svg" ++ post)
  = true ->
  fix_image_ext (pre ++ txt ".svg" ++ post)
  = pre ++ txt ".png" ++ fix_image_ext post
  /\ forall s, length (fix_image_ext s) = length s.
Proof.
  intros H. split.
  - unfold fix_image_ext. apply literal_law; [discriminate|exact H].
  - intros s. unfold fix_image_ext, re_sub.
    rewrite sub_scan_length; [lia|reflexivity|discriminate].
Qed.

Lemma fix_image_ext_every_occurrence_witness :
  fix_image_ext (txt "![svg](/images/a.svg) and b.svg")
  = txt "![svg](/images/a.png) and b.png".
Proof.
  exact (proj1 (fix_image_ext_every_occurrence (txt "![svg](/images/a")
                  (txt ") and b.svg") eq_refl)).
Defined.

(** X17: after step 2 no [.svg] is left in the text, so a second
    application of the step changes nothing. *)
Theorem fix_image_ext_clean (s : str) :
  occurs (txt ".svg") (fix_image_ext s) = false
  /\ fix_image_ext (fix_image_ext s) = fix_image_ext s.
Proof.
  assert (C : occurs (txt ".svg") (fix_image_ext s) = false).
  { unfold fix_image_ext, re_sub.
    apply (literal_clean "." (txt "svg") "." (txt "png")); [reflexivity|].
    intros r H. simpl. exact H. }
  split; [exact C|]. unfold fix_image_ext at 1. now apply literal_free_all.
Qed.

(** X18: after step 3 no link target starts with [/] any more: no
    [](/] is left in the text, so a second application of the step
    changes nothing. *)
Theorem fix_relative_links_clean (s : str) :
  occurs (txt "](/") (fix_relative_links s) = false
  /\ fix_relative_links (fix_relative_links s) = fix_relative_links s.
Proof.
  assert (C : occurs (txt "](/") (fix_relative_links s) = false).
  { unfold fix_relative_links, re_sub.
    apply (literal_clean "]" (txt "(/") "]" (txt "(https://vulkan-tutorial.com/"));
      [reflexivity|].
    intros r H. simpl. exact H. }
  split; [exact C|]. unfold fix_relative_links at 1.
  now apply literal_free_all.
Qed.

(** *** Anchors *)

Lemma last_Forall (P : str -> Prop) (l : list str) :
  Forall P l -> P [] -> P (last l []).
Proof.
  induction 1 as [|x l Hx Hl IH]; intros H0; [exact H0|].
  destruct l; [exact Hx|]. now apply IH.
Qed.

Lemma anchor_char_normal (c : ascii) :
  negb (Ascii.eqb c "/") = true ->
  anchor_char (if Ascii.eqb "_" (lower_char c) then "-"%char else lower_char c)
  = true.
Proof.
  destruct c as [[] [] [] [] [] [] [] []]; vm_compute; intros H;
    solve [reflexivity | discriminate H].
Qed.

(** X19: the anchor that [repl] returns between [](#] and [)] has no
    slash, no underscore and no character that [lower] would change. *)
Theorem repl_anchor_normal (group1 : str) :
  exists anchor,
    repl group1 = txt "](#" ++ anchor ++ txt ")"
    /\ forallb anchor_char anchor = true.
Proof.
  exists (spec_anchor group1). split; [apply repl_spec|].
  unfold spec_anchor, replace_char, lower. rewrite map_map.
  assert (H : forallb (fun c => negb (Ascii.eqb c "/"))
                (last (split "/" group1) []) = true).
  { apply (last_Forall (fun t => forallb _ t = true));
      [apply split_fields_no_sep|reflexivity]. }
  induction (last (split "/" group1) []) as [|c t IH]; [reflexivity|].
  cbn [forallb map] in *. apply andb_prop in H as [Hc H].
  now rewrite (anchor_char_normal c Hc), IH.
Qed.

Lemma split_app_two (sep : ascii) (a b : str) :
  exists t u ts, split sep (a ++ sep :: b) = t :: u :: ts.
Proof.
  induction a as [|c a IH]; simpl.
  - rewrite Ascii.eqb_refl. pose proof (split_not_nil sep b) as H.
    destruct (split sep b) as [|u ts]; [congruence|]. now exists [], u, ts.
  - destruct IH as [t [u [ts ->]]].
    destruct (Ascii.eqb c sep); [now exists [], t, (u :: ts)|].
    now exists (c :: t), u, ts.
Qed.

Lemma last_split_app (sep : ascii) (a b : str) :
  last (split sep (a ++ sep :: b)) [] = last (split sep b) [].
Proof.
  induction a as [|c a IH]; simpl.
  - rewrite Ascii.eqb_refl. pose proof (split_not_nil sep b) as H.
    destruct (split sep b); [congruence|reflexivity].
  - destruct (split_app_two sep a b) as [t [u [ts E]]].
    rewrite E in *. rewrite <- IH.
    destruct (Ascii.eqb c sep); reflexivity.
Qed.

(** X20: [repl] drops everything up to and including the last slash of
    the path; for a path that ends with a slash it returns the empty
    anchor. *)
Theorem repl_last_segment (front rest : str) :
  repl (front ++ txt "/" ++ rest) = repl rest
  /\ repl (front ++ txt "/") = txt "](#)".
Proof.
  assert (E : forall r, repl (front ++ txt "/" ++ r) = repl r).
  { intros r. rewrite !repl_spec. unfold spec_anchor.
    change (front ++ txt "/" ++ r) with (front ++ "/"%char :: r).
    now rewrite last_split_app. }
  split; [apply E|]. apply (E []).
Qed.

(** *** References that are not rewritten *)

Lemma take_while_all (p : ascii -> bool) (s : str) :
  forallb p s = true -> take_while p s = s.
Proof.
  induction s as [|c s IH]; simpl; [reflexivity|].
  intros H. apply andb_prop in H as [Hc H]. now rewrite Hc, IH.
Qed.

Lemma chapter_ref_open (s : str) :
  forallb not_rparen s = true -> chapter_ref s = None.
Proof.
  intros H. destruct (starts_with (txt "](!") s) eqn:E;
    [|now apply chapter_ref_guarded].
  destruct (starts_with_inv _ _ E) as [rest ->].
  assert (Hr : forallb not_rparen rest = true).
  { simpl in H. now repeat (apply andb_prop in H as [_ H]). }
  unfold chapter_ref.
  change (txt "](!" ++ rest) with ("]"%char :: "("%char :: "!"%char :: rest).
  cbv iota beta. rewrite (take_while_all _ _ Hr).
  destruct rest as [|a rest]; [reflexivity|].
  now rewrite (skipn_all (a :: rest)).
Qed.

(** X21: a text without closing parenthesis is returned unchanged by
    step 4, whatever marked references it starts; and a reference with
    the empty path, [](!)], is left as it is. *)
Theorem fix_chapter_references_unclosed (s t : str) :
  forallb not_rparen s = true ->
  fix_chapter_references s = s
  /\ fix_chapter_references (txt "](!)" ++ t)
     = txt "](!)" ++ fix_chapter_references t.
Proof.
  intros H. split.
  - apply re_sub_free_all. induction s as [|c s IH]; [reflexivity|].
    change (match_free chapter_ref (c :: s) [])
      with (match chapter_ref ((c :: s) ++ []) with
            | Some _ => false
            | None => match_free chapter_ref s []
            end).
    rewrite app_nil_r, (chapter_ref_open _ H).
    cbn [forallb] in H. apply andb_prop in H as [_ H]. now apply IH.
  - unfold fix_chapter_references. apply re_sub_free. reflexivity.
Qed.

Lemma fix_chapter_references_unclosed_witness :
  fix_chapter_references (txt "see [the setup](!en/00_Setup") 
  = txt "see [the setup](!en/00_Setup".
Proof.
  exact (proj1 (fix_chapter_references_unclosed
                  (txt "see [the setup](!en/00_Setup") [] eq_refl)).
Defined.

(** ** The document *)

Lemma fold_sections (l : list VTEMarkdownFile) (acc : str) :
  fold_left (fun temp_markdown entry =>
               temp_markdown ++ section_of entry ++ [nl; nl]) l acc
  = acc ++ concat (map (fun e => section_of e ++ [nl; nl]) l).
Proof.
  revert acc; induction l as [|x l IH]; intros acc;
    cbn [fold_left map concat].
  - now rewrite app_nil_r.
  - rewrite IH. now rewrite <- !app_assoc.
Qed.

(** X22: the document that a successful build writes is made of the
    sections of the fragments that the walk has collected, each
    followed by an empty line, in ascending order of the prefixes. *)
Theorem document_structure (language : list entry) (w : world) :
  fst (generate_markdown_from_sources language w) = Ok tt ->
  exists md_files,
    Permutation md_files
      (nth (length (lists w))
         (lists (snd (generate_markdown_from_sources language w))) [])
    /\ StronglySorted (key_le prefix) md_files
    /\ output_file (snd (generate_markdown_from_sources language w))
       = Some (concat (map (fun e => section_of e ++ [nl; nl]) md_files)).
Proof.
  rewrite generate_run.
  destruct (snd (collect language 0 [])); [discriminate|]. intros _. simpl.
  exists (sorted prefix (fst (collect language 0 []))).
  rewrite nth_middle. split; [apply sorted_perm|].
  split; [apply sorted_sorted|].
  unfold join_sections. now rewrite fold_sections.
Qed.

Lemma document_structure_witness :
  exists md_files,
    Permutation md_files
      (nth (length (lists empty_world))
         (lists (snd (generate_markdown_from_sources scenario empty_world))) [])
    /\ StronglySorted (key_le prefix) md_files
    /\ output_file (snd (generate_markdown_from_sources scenario empty_world))
       = Some (concat (map (fun e => section_of e ++ [nl; nl]) md_files)).
Proof. exact (document_structure scenario empty_world eq_refl). Defined.

(** ** The logger *)

(** X23: on a logger that has its file no call raises; each call adds
    its line to the file, with the name of its level in front for
    [error], [info] and [warning]; [detail] prints nothing, [info]
    prints the message without [Info: ], and [error] and [warning]
    print the line they log. *)
Theorem logger_with_file (calls : list Logger.call) (s : Logger.io)
    (written : str) :
  Logger.log_file (Logger.logger s) = Logger.FileObject written ->
  Logger.run_calls calls s
  = (Logger.Done,
     {| Logger.stdout :=
          Logger.stdout s ++ concat (map Logger.printed calls);
        Logger.logger :=
          {| Logger.log_file :=
               Logger.FileObject
                 (written ++ concat (map Logger.logged calls)) |} |}).
Proof.
  revert s written. induction calls as [|c calls IH]; intros s written H.
  - simpl. rewrite !app_nil_r. destruct s as [out [lf]]. simpl in H.
    now subst lf.
  - destruct s as [out [lf]]. simpl in H. subst lf. simpl Logger.run_calls.
    destruct c as [m|m|m|m]; simpl;
      (erewrite IH by reflexivity; simpl;
       repeat (rewrite <- !app_assoc; simpl); reflexivity).
Qed.

Lemma logger_with_file_witness :
  Logger.run_calls
    [Logger.Info (txt "Building"); Logger.Detail (txt "x");
     Logger.Error (txt "missing")]
    {| Logger.stdout := []; Logger.logger := Logger.init true |}
  = (Logger.Done,
     {| Logger.stdout := txt "Building" ++ [nl] ++ txt "Error: missing" ++ [nl];
        Logger.logger :=
          {| Logger.log_file :=
               Logger.FileObject
                 (txt "Info: Building" ++ [nl] ++ txt "x" ++ [nl]
                  ++ txt "Error: missing" ++ [nl]) |} |}).
Proof.
  exact (logger_with_file
           [Logger.Info (txt "Building"); Logger.Detail (txt "x");
            Logger.Error (txt "missing")]
           {| Logger.stdout := []; Logger.logger := Logger.init true |}
           [] eq_refl).
Defined.

(** X24: on a logger made with [log_to_file] false every method raises
    [AttributeError]: the first call of a sequence stops it, after it
    has printed what it prints, and the logger still has no file. *)
Theorem logger_without_file (c : Logger.call) (calls : list Logger.call)
    (out : str) :
  Logger.run_calls (c :: calls)
    {| Logger.stdout := out; Logger.logger := Logger.init false |}
  = (Logger.AttributeError,
     {| Logger.stdout := out ++ Logger.printed c;
        Logger.logger := Logger.init false |}).
Proof.
  destruct c as [m|m|m|m]; simpl; rewrite ?app_nil_r; reflexivity.
Qed.

(** ** Trees without files, and blocks of the document *)

Lemma unreadable_count (e : entry) : length (unreadable e) <= count_files e.
Proof.
  induction e as [name text|name children IH] using entry_induction.
  - destruct text; simpl; lia.
  - simpl. induction children as [|c children IHc]; [reflexivity|].
    inversion IH; subst. simpl. rewrite length_app.
    specialize (IHc H2). lia.
Qed.

(** X25: for a tree without any file, directories or not, the build
    succeeds, collects nothing and writes the empty document. *)
Theorem empty_tree_document (language : list entry) (w : world) :
  list_sum (map count_files language) = 0 ->
  generate_markdown_from_sources language w
  = (Ok tt, {| lists := lists w ++ [[]]; output_file := Some [] |}).
Proof.
  intros H.
  assert (U : flat_map unreadable language = []).
  { apply length_zero_iff_nil. revert H.
    induction language as [|e language IH]; [reflexivity|]. simpl.
    rewrite length_app. pose proof (unreadable_count e). intros H0.
    assert (H1 : list_sum (map count_files language) = 0) by lia.
    specialize (IH H1). lia. }
  pose proof (collect_readable language 0 [] U) as E.
  assert (L : length (fst (collect language 0 []))
              = list_sum (map count_files language)).
  { unfold collect in *.
    destruct (collect_each_ok _ _ _ E) as [-> Hall]. clear E U H.
    induction language as [|e language IH]; [reflexivity|].
    inversion Hall; subst. simpl. rewrite length_app. f_equal; auto.
    now apply collect_entry_count. }
  rewrite H in L. apply length_zero_iff_nil in L.
  rewrite generate_run, E, L. reflexivity.
Qed.

Lemma empty_tree_document_witness :
  generate_markdown_from_sources
    [Dir (txt "1_Empty") [Dir (txt "2_Deeper") []]] empty_world
  = (Ok tt, {| lists := [[]]; output_file := Some [] |}).
Proof.
  exact (empty_tree_document [Dir (txt "1_Empty") [Dir (txt "2_Deeper") []]]
           empty_world eq_refl).
Defined.

(** Between two strings that start with [p] there are only strings
    that start with [p]. *)
Lemma str_leb_between (p x y z : str) :
  str_leb x y = true -> str_leb y z = true ->
  starts_with p x = true -> starts_with p z = true ->
  starts_with p y = true.
Proof.
  revert x y z; induction p as [|c p IH]; intros x y z; [reflexivity|].
  destruct x as [|a x]; [discriminate|]. destruct z as [|b z]; [discriminate|].
  destruct y as [|q y]; [discriminate|]. simpl.
  intros Hxy Hyz Hx Hz.
  apply andb_prop in Hx as [Ea Hx]. apply andb_prop in Hz as [Eb Hz].
  apply Ascii.eqb_eq in Ea, Eb. subst a b.
  destruct (nat_of_ascii c <? nat_of_ascii q) eqn:E1;
    destruct (nat_of_ascii q <? nat_of_ascii c) eqn:E2; try discriminate.
  - apply Nat.ltb_lt in E1, E2. lia.
  - apply Nat.ltb_ge in E1, E2.
    assert (q = c) by (apply nat_of_ascii_inj; lia). subst q.
    rewrite Ascii.eqb_refl. simpl. now apply (IH x y z).
Qed.

Lemma sorted_app_r (R : VTEMarkdownFile -> VTEMarkdownFile -> Prop)
    (a b : list VTEMarkdownFile) :
  StronglySorted R (a ++ b) -> StronglySorted R b.
Proof.
  induction a as [|x a IH]; [auto|]. simpl. intros H.
  inversion H; subst. now apply IH.
Qed.

Lemma sorted_app_le (R : VTEMarkdownFile -> VTEMarkdownFile -> Prop)
    (a b : list VTEMarkdownFile) :
  StronglySorted R (a ++ b) ->
  forall y z, In y a -> In z b -> R y z.
Proof.
  induction a as [|x a IH]; [easy|]. simpl. intros H y z Hy Hz.
  inversion H as [|? ? H1 H2]; subst. destruct Hy as [<-|Hy].
  - rewrite Forall_forall in H2. apply H2, in_or_app. now right.
  - now apply IH.
Qed.

(** X26: in the sorted list the fragments whose prefix starts with a
    given string stand together: between two of them there is no
    fragment whose prefix starts otherwise.  So the chapters below a
    directory are not separated by a chapter from elsewhere. *)
Theorem sorted_prefix_block (p : str) (l before between after : list VTEMarkdownFile)
    (x z : VTEMarkdownFile) :
  sorted prefix l = before ++ x :: between ++ z :: after ->
  starts_with p (prefix x) = true ->
  starts_with p (prefix z) = true ->
  Forall (fun y => starts_with p (prefix y) = true) between.
Proof.
  intros E Hx Hz. pose proof (sorted_sorted prefix l) as S. rewrite E in S.
  apply sorted_app_r in S. inversion S as [|? ? S1 S2]; subst.
  apply Forall_forall. intros y Hy.
  apply (str_leb_between p (prefix x) (prefix y) (prefix z)); try assumption.
  - rewrite Forall_forall in S2. apply S2, in_or_app. now left.
  - apply (sorted_app_le _ _ _ S1 y z Hy). now left.
Qed.

Lemma sorted_prefix_block_witness :
  Forall (fun y => starts_with (txt "2.") (prefix y) = true)
    [ {| content := []; depth := 1; prefix := txt "2.2."; title := [] |} ].
Proof.
  exact (sorted_prefix_block (txt "2.")
           [ {| content := []; depth := 1; prefix := txt "2.3."; title := [] |};
             {| content := []; depth := 0; prefix := txt "3."; title := [] |};
             {| content := []; depth := 1; prefix := txt "2.2."; title := [] |};
             {| content := []; depth := 1; prefix := txt "2.1."; title := [] |};
             {| content := []; depth := 0; prefix := txt "1."; title := [] |} ]
           [ {| content := []; depth := 0; prefix := txt "1."; title := [] |} ]
           [ {| content := []; depth := 1; prefix := txt "2.2."; title := [] |} ]
           [ {| content := []; depth := 0; prefix := txt "3."; title := [] |} ]
           {| content := []; depth := 1; prefix := txt "2.1."; title := [] |}
           {| content := []; depth := 1; prefix := txt "2.3."; title := [] |}
           eq_refl eq_refl eq_refl).
Defined.
